(** * VideoCall: the peer-mesh call component

    A shallow embedding of the [VideoCall] React component
    (frontend/src/components/VideoCall): its state ([useState] cells and
    [useRef] cells), the signaling handler [handleSignal], the effects and
    the user-intent handlers, followed by the properties of the call
    orchestration they implement.

    Conventions of the embedding.
    - Every handler is run to completion: an [async] handler is one
      transition, its [await]s are sequenced in order, and a rejected
      [await] aborts the rest of the handler while keeping the mutations
      made so far (objects are mutated in place in the source).
    - The browser is the environment.  The answers of
      [navigator.mediaDevices] are arguments of the handlers; the answers
      of an [RTCPeerConnection] are given by a [transport] record.
    - What the component emits (messages given to [send], [console.error],
      [onClose]) is returned as a list of [output]s.
    - The call socket hands every inbound message to the [handleSignal]
      of the latest render, so the handler reads the current state. *)

From stdpp Require Import gmap list.

(** ** Media streams *)

Inductive track_kind := Audio | Video.

(** A [MediaStreamTrack]: [ended] is [readyState === 'ended']. *)
Record track := Track {
  track_id : nat;
  kind : track_kind;
  enabled : bool;
  ended : bool
}.

(** A [MediaStream]; [stream_id] is the identity of the handle. *)
Record stream := Stream {
  stream_id : nat;
  getTracks : list track
}.

Definition is_audio (t : track) : bool :=
  match kind t with Audio => true | Video => false end.

Definition is_video (t : track) : bool :=
  match kind t with Audio => false | Video => true end.

(** [t.stop()]: the track becomes ended; on an ended track nothing
    changes. *)
Definition stop (t : track) : track :=
  Track (track_id t) (kind t) (enabled t) true.

(** [t.enabled = b]. *)
Definition set_enabled (b : bool) (t : track) : track :=
  Track (track_id t) (kind t) b (ended t).

(** [stream.getTracks().forEach((t) => t.stop())]. *)
Definition stop_all (st : stream) : stream :=
  Stream (stream_id st) (stop <$> getTracks st).

(** [stream.getAudioTracks().forEach((t) => (t.enabled = b))]. *)
Definition enable_audio (b : bool) (st : stream) : stream :=
  Stream (stream_id st)
    ((fun t => if is_audio t then set_enabled b t else t) <$> getTracks st).

(** [stream.getVideoTracks().forEach((t) => (t.enabled = b))]. *)
Definition enable_video (b : bool) (st : stream) : stream :=
  Stream (stream_id st)
    ((fun t => if is_video t then set_enabled b t else t) <$> getTracks st).

(** ** Peer connections *)

(** Session descriptions and candidates are opaque payloads. *)
Definition sdp := nat.
Definition ice := nat.

(** The state of one [RTCPeerConnection] that the component can drive:
    [pc_serial] is the identity of the object (the rank of its [new]),
    [senders] the [(track, stream)] pairs passed to [addTrack], in order,
    [iceCandidates] the candidates the transport has accepted, in order. *)
Record pc := Pc {
  pc_serial : nat;
  senders : list (nat * nat);
  localDescription : option sdp;
  remoteDescription : option sdp;
  iceCandidates : list ice;
  pc_closed : bool
}.

(** [new RTCPeerConnection({ iceServers: ICE_SERVERS })]. *)
Definition new_pc (serial : nat) : pc := Pc serial [] None None [] false.

(** The awaited or throwing calls the component makes on a connection. *)
Inductive pc_op :=
| AddTrack (t : nat) (st : nat)
| CreateOffer
| CreateAnswer
| SetLocalDescription (d : sdp)
| SetRemoteDescription (d : sdp)
| AddIceCandidate (c : ice).

(** The media transport capability: whether a call on a connection in a
    given state is accepted, and the descriptions it generates. *)
Record transport := Transport {
  tr_ok : pc -> pc_op -> bool;
  tr_offer : pc -> sdp;
  tr_answer : pc -> sdp
}.

Inductive error :=
| MediaAcquisitionError
| NegotiationFailure
| TransportError.

(** Which failure a rejected call is: a rejected remote description or
    candidate is a negotiation failure. *)
Definition error_of (op : pc_op) : error :=
  match op with
  | SetRemoteDescription _ | AddIceCandidate _ => NegotiationFailure
  | _ => TransportError
  end.

(** The effect of an accepted call on the connection. *)
Definition apply_op (op : pc_op) (c : pc) : pc :=
  match op with
  | AddTrack t st =>
      Pc (pc_serial c) (senders c ++ [(t, st)]) (localDescription c)
         (remoteDescription c) (iceCandidates c) (pc_closed c)
  | CreateOffer | CreateAnswer => c
  | SetLocalDescription d =>
      Pc (pc_serial c) (senders c) (Some d)
         (remoteDescription c) (iceCandidates c) (pc_closed c)
  | SetRemoteDescription d =>
      Pc (pc_serial c) (senders c) (localDescription c)
         (Some d) (iceCandidates c) (pc_closed c)
  | AddIceCandidate x =>
      Pc (pc_serial c) (senders c) (localDescription c)
         (remoteDescription c) (iceCandidates c ++ [x]) (pc_closed c)
  end.

(** [pc.close()]: never rejected; on a closed connection nothing changes. *)
Definition close (c : pc) : pc :=
  Pc (pc_serial c) (senders c) (localDescription c)
     (remoteDescription c) (iceCandidates c) true.

(** *** Sequencing calls on one connection

    A computation on a connection object: it mutates the connection and
    either returns a value or is rejected.  A rejection stops the
    sequence; the mutations made before it stay. *)
Module PcM.

Definition t (A : Type) : Type := pc -> pc * (A + error).

Definition ret {A} (a : A) : t A := fun c => (c, inl a).

Definition bind {A B} (m : t A) (k : A -> t B) : t B :=
  fun c =>
    match m c with
    | (c', inl a) => k a c'
    | (c', inr e) => (c', inr e)
    end.

(** One call, accepted or rejected by the transport. *)
Definition call (tr : transport) (op : pc_op) : t unit :=
  fun c =>
    if tr_ok tr c op then (apply_op op c, inl tt)
    else (c, inr (error_of op)).

(** Reading the connection, for the generated descriptions. *)
Definition get : t pc := fun c => (c, inl c).

End PcM.

Notation "x <- m ;; k" := (PcM.bind m (fun x => k))
  (at level 100, m at next level, right associativity).
Notation "m ;;; k" := (PcM.bind m (fun _ => k))
  (at level 100, right associativity).

(** [stream.getTracks().forEach((t) => pc.addTrack(t, stream))]: the loop
    stops at the first [addTrack] that throws. *)
Fixpoint addTracks (tr : transport) (sid : nat) (ts : list track)
  : PcM.t unit :=
  match ts with
  | [] => PcM.ret tt
  | t :: ts' =>
      PcM.call tr (AddTrack (track_id t) sid) ;;; addTracks tr sid ts'
  end.

(** [createOffer] then [setLocalDescription], returning the offer. *)
Definition makeOffer (tr : transport) : PcM.t sdp :=
  PcM.call tr CreateOffer ;;;
  c <- PcM.get ;;
  let o := tr_offer tr c in
  PcM.call tr (SetLocalDescription o) ;;;
  PcM.ret o.

(** [setRemoteDescription(offer)], [createAnswer], [setLocalDescription],
    returning the answer. *)
Definition makeAnswer (tr : transport) (offer : sdp) : PcM.t sdp :=
  PcM.call tr (SetRemoteDescription offer) ;;;
  PcM.call tr CreateAnswer ;;;
  c <- PcM.get ;;
  let a := tr_answer tr c in
  PcM.call tr (SetLocalDescription a) ;;;
  PcM.ret a.

(** ** Signaling messages *)

(** The [type] discriminator of an inbound message. *)
Inductive sig_type :=
| TJoin | TOffer | TAnswer | TIceCandidate | TUserLeft | TUnknown.

(** An inbound message [data], as [handleSignal] destructures it.
    [from_user] is [data.from_user?.id]; an absent identifier, recipient,
    candidate or [user_id] is [None]. *)
Record signal := Signal {
  type : sig_type;
  from_user : option Z;
  to_user : option Z;
  offer : sdp;
  answer : sdp;
  candidate : option ice;
  user_id : option Z
}.

(** A message given to [send]. *)
Inductive message :=
| MJoin
| MOffer (o : sdp) (to : Z)
| MAnswer (a : sdp) (to : Z)
| MIceCandidate (c : ice) (to : Z).

(** What the component emits. *)
Inductive output :=
| Send (m : message)
| ConsoleError
| OnClose
| Unhandled (e : error).

(** How a handler ends: normally, or with a rejection nobody catches. *)
Inductive outcome := Done | Rejected (e : error).

(** ** The component state *)

(** The [useState] cells ([peers] to [isScreenSharing]), the [useRef]
    cells [pcRef] and [joinSentRef], the [connected] flag of the call
    socket, and two counters of the environment: the number of
    [RTCPeerConnection]s constructed and of [getUserMedia] requests. *)
Record state := State {
  peers : gmap Z nat;
  localStream : option stream;
  screenStream : option stream;
  isMuted : bool;
  isVideoOff : bool;
  isScreenSharing : bool;
  pcRef : gmap Z pc;
  joinSentRef : bool;
  connected : bool;
  pcCreated : nat;
  gumCalls : nat
}.

(** The state at mount. *)
Definition init : state :=
  State ∅ None None false false false ∅ false false 0 0.

Definition set_peers (v : gmap Z nat) (s : state) : state :=
  State v (localStream s) (screenStream s) (isMuted s) (isVideoOff s)
    (isScreenSharing s) (pcRef s) (joinSentRef s) (connected s)
    (pcCreated s) (gumCalls s).

Definition set_localStream (v : option stream) (s : state) : state :=
  State (peers s) v (screenStream s) (isMuted s) (isVideoOff s)
    (isScreenSharing s) (pcRef s) (joinSentRef s) (connected s)
    (pcCreated s) (gumCalls s).

Definition set_screenStream (v : option stream) (s : state) : state :=
  State (peers s) (localStream s) v (isMuted s) (isVideoOff s)
    (isScreenSharing s) (pcRef s) (joinSentRef s) (connected s)
    (pcCreated s) (gumCalls s).

Definition set_isMuted (v : bool) (s : state) : state :=
  State (peers s) (localStream s) (screenStream s) v (isVideoOff s)
    (isScreenSharing s) (pcRef s) (joinSentRef s) (connected s)
    (pcCreated s) (gumCalls s).

Definition set_isVideoOff (v : bool) (s : state) : state :=
  State (peers s) (localStream s) (screenStream s) (isMuted s) v
    (isScreenSharing s) (pcRef s) (joinSentRef s) (connected s)
    (pcCreated s) (gumCalls s).

Definition set_isScreenSharing (v : bool) (s : state) : state :=
  State (peers s) (localStream s) (screenStream s) (isMuted s)
    (isVideoOff s) v (pcRef s) (joinSentRef s) (connected s)
    (pcCreated s) (gumCalls s).

Definition set_pcRef (v : gmap Z pc) (s : state) : state :=
  State (peers s) (localStream s) (screenStream s) (isMuted s)
    (isVideoOff s) (isScreenSharing s) v (joinSentRef s) (connected s)
    (pcCreated s) (gumCalls s).

Definition set_joinSentRef (v : bool) (s : state) : state :=
  State (peers s) (localStream s) (screenStream s) (isMuted s)
    (isVideoOff s) (isScreenSharing s) (pcRef s) v (connected s)
    (pcCreated s) (gumCalls s).

Definition set_connected (v : bool) (s : state) : state :=
  State (peers s) (localStream s) (screenStream s) (isMuted s)
    (isVideoOff s) (isScreenSharing s) (pcRef s) (joinSentRef s) v
    (pcCreated s) (gumCalls s).

Definition set_pcCreated (v : nat) (s : state) : state :=
  State (peers s) (localStream s) (screenStream s) (isMuted s)
    (isVideoOff s) (isScreenSharing s) (pcRef s) (joinSentRef s)
    (connected s) v (gumCalls s).

Definition set_gumCalls (v : nat) (s : state) : state :=
  State (peers s) (localStream s) (screenStream s) (isMuted s)
    (isVideoOff s) (isScreenSharing s) (pcRef s) (joinSentRef s)
    (connected s) (pcCreated s) v.

(** ** The handlers *)

(** [createPeerConnection(peerId, isInitiator)]: the connection already
    in [pcRef] under [peerId], or a new one stored there. *)
Definition createPeerConnection (peerId : Z) (s : state) : pc * state :=
  match pcRef s !! peerId with
  | Some c => (c, s)
  | None =>
      let c := new_pc (pcCreated s) in
      (c, set_pcCreated (S (pcCreated s))
            (set_pcRef (<[peerId := c]> (pcRef s)) s))
  end.

(** [localStream || (await getUserMedia(...))] followed by
    [if (!localStream) setLocalStream(stream)]: [media] is what
    [getUserMedia] answers when it is asked. *)
Definition ensureLocalStream (media : option stream) (s : state)
  : state * option stream :=
  match localStream s with
  | Some st => (s, Some st)
  | None =>
      let s1 := set_gumCalls (S (gumCalls s)) s in
      match media with
      | Some st => (set_localStream (Some st) s1, Some st)
      | None => (s1, None)
      end
  end.

(** Stores the connection object back under [peerId] after the calls made
    on it, and turns the result of those calls into what is emitted. *)
Definition settle (peerId : Z) (reply : sdp -> message) (s : state)
    (r : pc * (sdp + error)) : state * list output * outcome :=
  let s' := set_pcRef (<[peerId := r.1]> (pcRef s)) s in
  match r.2 with
  | inl d => (s', [Send (reply d)], Done)
  | inr e => (s', [], Rejected e)
  end.

(** [const pc = pcRef.current[peerId]; if (pc) await pc.op(...)]: one
    call on the connection stored under [peerId], when there is one. *)
Definition callOn (tr : transport) (peerId : Z) (op : pc_op) (s : state)
  : state * list output * outcome :=
  match pcRef s !! peerId with
  | Some c =>
      if tr_ok tr c op
      then (set_pcRef (<[peerId := apply_op op c]> (pcRef s)) s, [], Done)
      else (s, [], Rejected (error_of op))
  | None => (s, [], Done)
  end.

(** A JavaScript identifier is usable when it is present and truthy. *)
Definition truthy (i : option Z) : bool :=
  match i with
  | Some z => negb (z =? 0)%Z
  | None => false
  end.

(** [handleSignal(data)], for the local participant [uid] ([user?.id]). *)
Definition handleSignal (tr : transport) (uid : option Z) (data : signal)
    (media : option stream) (s : state) : state * list output * outcome :=
  match from_user data with
  | None => (s, [], Done)
  | Some peerId =>
    if negb (truthy (Some peerId)) || bool_decide (Some peerId = uid)
    then (s, [], Done)
    else
      match type data with
      | TJoin =>
          match ensureLocalStream media s with
          | (s1, None) => (s1, [], Rejected MediaAcquisitionError)
          | (s1, Some st) =>
              let '(c, s2) := createPeerConnection peerId s1 in
              settle peerId (fun o => MOffer o peerId) s2
                ((addTracks tr (stream_id st) (getTracks st) ;;;
                  makeOffer tr) c)
          end
      | TOffer =>
          if bool_decide (to_user data = uid) then
            let '(c, s1) := createPeerConnection peerId s in
            match ensureLocalStream media s1 with
            | (s2, None) => (s2, [], Rejected MediaAcquisitionError)
            | (s2, Some st) =>
                settle peerId (fun a => MAnswer a peerId) s2
                  ((addTracks tr (stream_id st) (getTracks st) ;;;
                    makeAnswer tr (offer data)) c)
            end
          else (s, [], Done)
      | TAnswer =>
          if bool_decide (to_user data = uid)
          then callOn tr peerId (SetRemoteDescription (answer data)) s
          else (s, [], Done)
      | TIceCandidate =>
          match candidate data with
          | Some x =>
              if bool_decide (to_user data = uid)
              then callOn tr peerId (AddIceCandidate x) s
              else (s, [], Done)
          | None => (s, [], Done)
          end
      | TUserLeft =>
          match user_id data with
          | Some pid =>
              (set_peers (delete pid (peers s))
                 (set_pcRef (delete pid (pcRef s)) s), [], Done)
          | None => (s, [], Done)
          end
      | TUnknown => (s, [], Done)
      end
  end.

(** [pc.ontrack]: the remote stream handle is recorded under [peerId]. *)
Definition onTrack (peerId : Z) (remote : nat) (s : state) : state :=
  set_peers (<[peerId := remote]> (peers s)) s.

(** [pc.onicecandidate]: a local candidate is forwarded to the peer. *)
Definition onIceCandidate (peerId : Z) (c : option ice) : list output :=
  match c with
  | Some x => [Send (MIceCandidate x peerId)]
  | None => []
  end.

(** The [start] call of the mount effect: [media] is the answer of
    [getUserMedia]; a refusal is caught and logged. *)
Definition start (media : option stream) (s : state)
  : state * list output :=
  let s1 := set_gumCalls (S (gumCalls s)) s in
  match media with
  | Some st => (set_localStream (Some st) s1, [])
  | None => (s1, [ConsoleError])
  end.

(** The effect guarded by [joinSentRef]. *)
Definition joinEffect (s : state) : state * list output :=
  if connected s && bool_decide (is_Some (localStream s))
     && negb (joinSentRef s)
  then (set_joinSentRef true s, [Send MJoin])
  else (s, []).

(** [toggleMute]: the audio tracks get [enabled = isMuted], then the
    flag is flipped. *)
Definition toggleMute (s : state) : state :=
  set_isMuted (negb (isMuted s))
    (set_localStream (enable_audio (isMuted s) <$> localStream s) s).

(** [toggleVideo]: the video tracks get [enabled = isVideoOff], then the
    flag is flipped. *)
Definition toggleVideo (s : state) : state :=
  set_isVideoOff (negb (isVideoOff s))
    (set_localStream (enable_video (isVideoOff s) <$> localStream s) s).

(** [startScreenShare]: [display] is the answer of [getDisplayMedia].
    The two setters run before [getVideoTracks()[0].onended = ...], which
    throws inside the [try] when the stream has no video track. *)
Definition startScreenShare (display : option stream) (s : state)
  : state * list output :=
  match display with
  | Some st =>
      (set_isScreenSharing true (set_screenStream (Some st) s),
       if existsb is_video (getTracks st) then [] else [ConsoleError])
  | None => (s, [ConsoleError])
  end.

(** [stopScreenShare]. *)
Definition stopScreenShare (s : state) : state :=
  set_isScreenSharing false (set_screenStream None s).

(** [hangUp]: every local and screen-share track is stopped, every
    connection of [pcRef] is closed, and [onClose] is notified.  The
    handles themselves stay where they are. *)
Definition hangUp (s : state) : state * list output :=
  (set_pcRef (close <$> pcRef s)
     (set_screenStream (stop_all <$> screenStream s)
        (set_localStream (stop_all <$> localStream s) s)),
   [OnClose]).

(** ** Events *)

(** What can happen to a mounted component. *)
Inductive event :=
| EvStart (media : option stream)
| EvConnected (b : bool)
| EvSignal (data : signal) (media : option stream)
| EvTrack (peerId : Z) (remote : nat)
| EvLocalCandidate (peerId : Z) (c : option ice)
| EvToggleMute
| EvToggleVideo
| EvStartScreenShare (display : option stream)
| EvStopScreenShare
| EvHangUp.

(** The handler of an event. *)
Definition handle (tr : transport) (uid : option Z) (ev : event)
    (s : state) : state * list output :=
  match ev with
  | EvStart media => start media s
  | EvConnected b => (set_connected b s, [])
  | EvSignal data media =>
      match handleSignal tr uid data media s with
      | (s', out, Done) => (s', out)
      | (s', out, Rejected e) => (s', out ++ [Unhandled e])
      end
  | EvTrack peerId remote => (onTrack peerId remote s, [])
  | EvLocalCandidate peerId c => (s, onIceCandidate peerId c)
  | EvToggleMute => (toggleMute s, [])
  | EvToggleVideo => (toggleVideo s, [])
  | EvStartScreenShare display => startScreenShare display s
  | EvStopScreenShare => (stopScreenShare s, [])
  | EvHangUp => hangUp s
  end.

(** One event: its handler, then the render it causes, after which the
    join effect runs.  (The effect depends on [connected], [localStream]
    and [send]; run when none of them changed, its guard fails or holds
    exactly as at its previous run, see [joinEffect_again].) *)
Definition step (tr : transport) (uid : option Z) (ev : event)
    (s : state) : state * list output :=
  let '(s1, out1) := handle tr uid ev s in
  let '(s2, out2) := joinEffect s1 in
  (s2, out1 ++ out2).

(** A sequence of events, from state [s]. *)
Fixpoint run (tr : transport) (uid : option Z) (evs : list event)
    (s : state) : state * list output :=
  match evs with
  | [] => (s, [])
  | ev :: evs' =>
      let '(s1, out1) := step tr uid ev s in
      let '(s2, out2) := run tr uid evs' s1 in
      (s2, out1 ++ out2)
  end.

(** A sequence of inbound signaling messages alone, with the answers of
    [getUserMedia]; rejections are dropped, outputs are not collected.
    Each handler is folded whole, in arrival order.  The source suspends
    a handler at its [await]s, where a later message can run.  For the
    connection table this makes no difference when the local stream is
    held: every branch then reads or writes [pcRef] before its first
    [await], and the calls on a connection are issued in arrival order.
    With no stream held, the join branch awaits [getUserMedia] before
    [createPeerConnection], and a message handled during that wait is
    not accounted for by the fold. *)
Definition receive (tr : transport) (uid : option Z)
    (msgs : list (signal * option stream)) (s : state) : state :=
  foldl (fun s m => (handleSignal tr uid m.1 m.2 s).1.1) s msgs.

(** ** Vocabulary of the properties *)

(** The number of join announcements among what was emitted. *)
Fixpoint joins (out : list output) : nat :=
  match out with
  | [] => 0
  | Send MJoin :: out' => S (joins out')
  | _ :: out' => joins out'
  end.

(** The join flag as a count. *)
Definition sent_flag (s : state) : nat := if joinSentRef s then 1 else 0.

(** The signaling channel is connected and local media is acquired. *)
Definition ready (s : state) : Prop :=
  connected s = true ∧ is_Some (localStream s).

(** The two control toggles, and a sequence of them. *)
Inductive toggle := Mute | Camera.

Definition toggles (ts : list toggle) (s : state) : state :=
  foldl (fun s t =>
           match t with Mute => toggleMute s | Camera => toggleVideo s end)
        s ts.

(** Two tracks that differ at most in their [enabled] flag. *)
Definition same_but_enabled (t t' : track) : Prop :=
  track_id t = track_id t' ∧ kind t = kind t' ∧ ended t = ended t'.

(** The tracks of a held stream that are still live. *)
Definition live_tracks (o : option stream) : list nat :=
  match o with
  | Some st =>
      track_id <$> filter (fun t => ended t = false) (getTracks st)
  | None => []
  end.

(** The connections of the table that are still open. *)
Definition open_pcs (m : gmap Z pc) : gmap Z pc :=
  filter (fun kv => pc_closed kv.2 = false) m.

(** The resources a state still holds unreleased: live local tracks,
    live screen-share tracks, open peer connections. *)
Definition held (s : state) : list nat * list nat * gmap Z pc :=
  (live_tracks (localStream s), live_tracks (screenStream s),
   open_pcs (pcRef s)).

(** [t'] is the track [t] once stopped: the same track, ended. *)
Definition stopped (t t' : track) : Prop :=
  track_id t' = track_id t ∧ kind t' = kind t ∧
  enabled t' = enabled t ∧ ended t' = true.

(** [st'] is the stream [st] with every track stopped, under the same
    handle. *)
Definition all_stopped (st st' : stream) : Prop :=
  stream_id st' = stream_id st ∧
  Forall2 stopped (getTracks st) (getTracks st').

(** [c'] is the connection [c] once closed: the same object with what
    it carried, closed. *)
Definition closed_of (c c' : pc) : Prop :=
  pc_serial c' = pc_serial c ∧ senders c' = senders c ∧
  localDescription c' = localDescription c ∧
  remoteDescription c' = remoteDescription c ∧
  iceCandidates c' = iceCandidates c ∧ pc_closed c' = true.

(** What a transition releases: the resources held before it that are
    no longer held after it. *)
Definition released (s s' : state) : list nat * list nat * gmap Z pc :=
  (list_difference (live_tracks (localStream s))
                   (live_tracks (localStream s')),
   list_difference (live_tracks (screenStream s))
                   (live_tracks (screenStream s')),
   open_pcs (pcRef s) ∖ open_pcs (pcRef s')).

(** The component asks to leave the call: the only way back to idle is
    the [onClose] notification, upon which the parent unmounts it. *)
Definition returns_to_idle (out : list output) : Prop := OnClose ∈ out.

(** An offer to [p] is among what was emitted. *)
Definition offers_to (p : Z) (out : list output) : Prop :=
  ∃ o, Send (MOffer o p) ∈ out.

(** A transport that accepts every call. *)
Definition accepts_all (tr : transport) : Prop :=
  ∀ c op, tr_ok tr c op = true.

(** [addTrack] for every track of a stream, as pairs of identifiers. *)
Definition sender_pairs (st : stream) : list (nat * nat) :=
  (fun t => (track_id t, stream_id st)) <$> getTracks st.

Definition with_senders (l : list (nat * nat)) (c : pc) : pc :=
  Pc (pc_serial c) l (localDescription c) (remoteDescription c)
     (iceCandidates c) (pc_closed c).

Definition with_candidates (l : list ice) (c : pc) : pc :=
  Pc (pc_serial c) (senders c) (localDescription c) (remoteDescription c)
     l (pc_closed c).

(** *** Membership of the connection table *)

(** The sender of a message is usable: present, truthy, not the local
    participant. *)
Definition from_peer (uid : option Z) (m : signal) (p : Z) : Prop :=
  from_user m = Some p ∧ p ≠ 0%Z ∧ Some p ≠ uid.

(** The usable sender of a message, as the guard of [handleSignal]
    computes it. *)
Definition sender (uid : option Z) (m : signal) : option Z :=
  match from_user m with
  | Some q =>
      if negb (truthy (Some q)) || bool_decide (Some q = uid)
      then None else Some q
  | None => None
  end.

(** [m] is a join from [p], or an offer from [p] addressed to the local
    participant. *)
Definition creates (uid : option Z) (p : Z) (m : signal) : Prop :=
  from_peer uid m p ∧
  (type m = TJoin ∨ (type m = TOffer ∧ to_user m = uid)).

(** [m] is a departure notice naming [p], from a usable sender. *)
Definition removes (uid : option Z) (p : Z) (m : signal) : Prop :=
  type m = TUserLeft ∧ user_id m = Some p ∧ ∃ q, from_peer uid m q.

(** The peer set the design document promises, in its words: the
    participants that sent a message other than a departure and have not
    sent a departure since. *)
Fixpoint promised_peers (msgs : list signal) (acc : gset Z) : gset Z :=
  match msgs with
  | [] => acc
  | m :: msgs' =>
      match from_user m with
      | Some p =>
          match type m with
          | TUserLeft => promised_peers msgs' (acc ∖ {[p]})
          | _ => promised_peers msgs' ({[p]} ∪ acc)
          end
      | None => promised_peers msgs' acc
      end
  end.

(** ** Sample environment *)

(** A camera stream with one audio and one video track, and a display
    stream. *)
Definition cam : stream :=
  Stream 1 [Track 1 Audio true false; Track 2 Video true false].

Definition display : stream := Stream 2 [Track 3 Video true false].

(** The local participant of the samples. *)
Definition me : option Z := Some 1%Z.

(** A transport that accepts everything; the descriptions it generates
    carry the number of senders. *)
Definition permissive : transport :=
  Transport (fun _ _ => true)
            (fun c => length (senders c)) (fun c => length (senders c)).

(** A transport that refuses a candidate as long as the connection has no
    remote description, as the underlying transport of the design does. *)
Definition strict : transport :=
  Transport
    (fun c op =>
       match op with
       | AddIceCandidate _ => bool_decide (is_Some (remoteDescription c))
       | _ => true
       end)
    (fun c => length (senders c)) (fun c => length (senders c)).

(** A transport that refuses to attach a track that already has a
    sender on the connection, as an [RTCPeerConnection] does ([addTrack]
    throws [InvalidAccessError]), and accepts everything else. *)
Definition no_repeat : transport :=
  Transport
    (fun c op =>
       match op with
       | AddTrack t _ => negb (bool_decide (t ∈ (senders c).*1))
       | _ => true
       end)
    (fun c => length (senders c)) (fun c => length (senders c)).

(** A transport that refuses every remote description. *)
Definition deaf : transport :=
  Transport
    (fun c op =>
       match op with
       | SetRemoteDescription _ => false
       | _ => true
       end)
    (fun c => length (senders c)) (fun c => length (senders c)).

Definition sigJoin (p : Z) : signal :=
  Signal TJoin (Some p) None 0 0 None None.

Definition sigOffer (p to : Z) (o : sdp) : signal :=
  Signal TOffer (Some p) (Some to) o 0 None None.

Definition sigAnswer (p to : Z) (a : sdp) : signal :=
  Signal TAnswer (Some p) (Some to) 0 a None None.

Definition sigIce (p to : Z) (x : ice) : signal :=
  Signal TIceCandidate (Some p) (Some to) 0 0 (Some x) None.

Definition sigLeft (p : Z) : signal :=
  Signal TUserLeft (Some p) None 0 0 None (Some p).

(** A call in which media is acquired, the channel is connected, and
    participant 2 has joined and was sent an offer. *)
Definition offered : state :=
  (run permissive me
     [EvStart (Some cam); EvConnected true; EvSignal (sigJoin 2) None]
     init).1.

(** The same call once 2 has answered and its track has arrived, and a
    second participant 3 has joined. *)
Definition in_call : state :=
  (run permissive me
     [EvSignal (sigAnswer 2 1 7) None; EvTrack 2 9;
      EvSignal (sigJoin 3) None]
     offered).1.

(** Participant 2 joins and leaves, participant 3 offers. *)
Definition come_and_go : list (signal * option stream) :=
  [(sigJoin 2, None); (sigLeft 2, None); (sigOffer 3 1 7, None)].

(** ** The cleanup of the mount effect *)

(** [stream?.getTracks().forEach((t) => t.stop())] through a handle read
    by a closure: the tracks stopped are those of the captured stream, so
    the stream a cell holds now is affected when it is that same
    handle. *)
Definition stop_captured (captured o : option stream) : option stream :=
  match captured, o with
  | Some c, Some st =>
      if Nat.eqb (stream_id c) (stream_id st)
      then Some (stop_all st) else Some st
  | _, _ => o
  end.

(** The function returned by the mount effect, for the render [captured]
    whose [localStream] and [screenStream] its closure reads: it stops
    the tracks of those two, closes every connection of [pcRef.current]
    and resets the table. *)
Definition cleanupWith (captured s : state) : state :=
  set_pcRef ∅
    (set_screenStream
       (stop_captured (screenStream captured) (screenStream s))
       (set_localStream
          (stop_captured (localStream captured) (localStream s)) s)).

(** The mount effect has an empty dependency list: it runs once, after
    the first render, and the cleanup it returns reads the cells of that
    render, which hold their initial values. *)
Definition cleanup (s : state) : state := cleanupWith init s.

(** ** Vocabulary of the further properties *)

(** A message the handler has nothing to do with: no usable sender, an
    unknown type, a unicast message for somebody else, a candidate
    message without candidate, an answer or candidate from a participant
    without connection, a departure naming nobody or somebody unknown. *)
Definition discarded (uid : option Z) (s : state) (data : signal) : Prop :=
  sender uid data = None ∨
  type data = TUnknown ∨
  (type data ≠ TJoin ∧ type data ≠ TUserLeft ∧ to_user data ≠ uid) ∨
  (type data = TIceCandidate ∧ candidate data = None) ∨
  ((type data = TAnswer ∨ type data = TIceCandidate) ∧
   ∀ p, from_user data = Some p → pcRef s !! p = None) ∨
  (type data = TUserLeft ∧
   ∀ pid, user_id data = Some pid →
          pcRef s !! pid = None ∧ peers s !! pid = None).

(** Every connection of the table was constructed by the component, and
    no two participants share one. *)
Definition fresh_serials (s : state) : Prop :=
  (∀ p c, pcRef s !! p = Some c → pc_serial c < pcCreated s) ∧
  (∀ p q c d, pcRef s !! p = Some c → pcRef s !! q = Some d →
              pc_serial c = pc_serial d → p = q).

(** The mute flag tells the truth about the audio tracks of the local
    stream, and the camera flag about its video tracks. *)
Definition mute_agrees (s : state) : Prop :=
  match localStream s with
  | Some st =>
      Forall (fun t => is_audio t = true → enabled t = negb (isMuted s))
             (getTracks st)
  | None => True
  end.

Definition camera_agrees (s : state) : Prop :=
  match localStream s with
  | Some st =>
      Forall (fun t => is_video t = true → enabled t = negb (isVideoOff s))
             (getTracks st)
  | None => True
  end.

(** [c'] is the connection [c] after some accepted calls: the same
    object, no more closed, with senders and candidates added after
    those it had. *)
Definition grows (c c' : pc) : Prop :=
  pc_serial c' = pc_serial c ∧ pc_closed c' = pc_closed c ∧
  senders c `prefix_of` senders c' ∧
  iceCandidates c `prefix_of` iceCandidates c'.

(** The four ways a message can change the table: not at all, by calls
    on the connection of its sender, by a new connection for its sender,
    by the removal of the participant a departure names. *)
Definition table_step (uid : option Z) (data : signal) (s s' : state)
  : Prop :=
  (pcRef s' = pcRef s ∧ peers s' = peers s ∧ pcCreated s' = pcCreated s) ∨
  (∃ p c c', sender uid data = Some p ∧ pcRef s !! p = Some c ∧
             grows c c' ∧ pcRef s' = <[p := c']> (pcRef s) ∧
             peers s' = peers s ∧ pcCreated s' = pcCreated s) ∨
  (∃ p c', sender uid data = Some p ∧ pcRef s !! p = None ∧
           grows (new_pc (pcCreated s)) c' ∧
           pcRef s' = <[p := c']> (pcRef s) ∧
           peers s' = peers s ∧ pcCreated s' = S (pcCreated s)) ∨
  (∃ pid, type data = TUserLeft ∧ user_id data = Some pid ∧
          pcRef s' = delete pid (pcRef s) ∧
          peers s' = delete pid (peers s) ∧ pcCreated s' = pcCreated s).

(** * Properties *)

(** Splits the equations between tuples that a case analysis leaves. *)
Ltac unpack :=
  repeat match goal with
         | H : (_, _) = (_, _) |- _ =>
             apply pair_equal_spec in H; destruct H
         end;
  subst; simpl in *.

(** Refutes the membership of an output in a list of at most one other
    output. *)
Ltac not_emitted :=
  let H := fresh in
  intros H; repeat (inversion H as [|? ? ? H']; clear H; subst; rename H' into H);
  inversion H.

(** ** Calls on a connection *)

Section Calls.

Context (tr : transport).

(** An accepted or refused call keeps the identity of the connection and
    does not close it. *)
Lemma call_keeps op c :
  pc_serial (PcM.call tr op c).1 = pc_serial c ∧
  pc_closed (PcM.call tr op c).1 = pc_closed c.
Proof.
  unfold PcM.call. destruct (tr_ok tr c op); [|done].
  destruct op; done.
Qed.

Lemma addTracks_keeps sid ts c :
  pc_serial (addTracks tr sid ts c).1 = pc_serial c ∧
  pc_closed (addTracks tr sid ts c).1 = pc_closed c.
Proof.
  revert c. induction ts as [|t ts IH]; intros c; [done|].
  cbn [addTracks]. unfold PcM.bind.
  pose proof (call_keeps (AddTrack (track_id t) sid) c) as [Hs Hc].
  destruct (PcM.call tr (AddTrack (track_id t) sid) c) as [c1 [[]|e]];
    simpl in *; [|done].
  destruct (IH c1) as [-> ->]. done.
Qed.

Lemma makeOffer_keeps c :
  pc_serial (makeOffer tr c).1 = pc_serial c ∧
  pc_closed (makeOffer tr c).1 = pc_closed c.
Proof.
  unfold makeOffer, PcM.bind, PcM.get, PcM.ret, PcM.call.
  repeat (case_match; unpack); done.
Qed.

Lemma makeAnswer_keeps o c :
  pc_serial (makeAnswer tr o c).1 = pc_serial c ∧
  pc_closed (makeAnswer tr o c).1 = pc_closed c.
Proof.
  unfold makeAnswer, PcM.bind, PcM.get, PcM.ret, PcM.call.
  repeat (case_match; unpack); done.
Qed.

Lemma offer_calls_keep sid ts o c :
  pc_closed ((addTracks tr sid ts ;;; makeAnswer tr o) c).1 = pc_closed c.
Proof.
  unfold PcM.bind.
  pose proof (addTracks_keeps sid ts c) as [_ Ha].
  destruct (addTracks tr sid ts c) as [c1 [[]|e1]]; simpl in *; [|done].
  pose proof (makeAnswer_keeps o c1) as [_ Hm]. congruence.
Qed.

(** Attaching tracks or making an offer never fails as a negotiation
    failure. *)
Lemma addTracks_error sid ts c e :
  (addTracks tr sid ts c).2 = inr e → e = TransportError.
Proof.
  revert c. induction ts as [|t ts IH]; intros c; [done|].
  cbn [addTracks]. unfold PcM.bind, PcM.call.
  destruct (tr_ok tr c _); simpl; [apply IH|congruence].
Qed.

Lemma makeOffer_error c e :
  (makeOffer tr c).2 = inr e → e = TransportError.
Proof.
  unfold makeOffer, PcM.bind, PcM.get, PcM.ret, PcM.call.
  repeat (case_match; unpack); congruence.
Qed.

Lemma join_calls_error sid ts c e :
  ((addTracks tr sid ts ;;; makeOffer tr) c).2 = inr e → e = TransportError.
Proof.
  unfold PcM.bind.
  pose proof (addTracks_error sid ts c) as Ha.
  destruct (addTracks tr sid ts c) as [c1 [[]|e1]]; simpl in *.
  - apply makeOffer_error.
  - intros [= <-]. by apply Ha.
Qed.

(** With a transport that accepts everything, every track is attached
    and the offer is made. *)
Section Accepting.

Hypothesis accepted : accepts_all tr.

Lemma addTracks_accepted sid ts c :
  addTracks tr sid ts c
  = (with_senders (senders c ++ ((fun t => (track_id t, sid)) <$> ts)) c,
     inl tt).
Proof.
  revert c. induction ts as [|t ts IH]; intros c.
  - simpl. unfold PcM.ret, with_senders. rewrite app_nil_r. by destruct c.
  - cbn [addTracks]. unfold PcM.bind, PcM.call. rewrite accepted.
    rewrite IH. simpl. unfold with_senders. simpl.
    by rewrite <- app_assoc.
Qed.

Lemma makeOffer_accepted c :
  makeOffer tr c
  = (apply_op (SetLocalDescription (tr_offer tr c)) c, inl (tr_offer tr c)).
Proof.
  unfold makeOffer, PcM.bind, PcM.get, PcM.ret, PcM.call.
  rewrite ?accepted. simpl. rewrite ?accepted. done.
Qed.

End Accepting.

End Calls.

(** ** The signaling handler *)

Section Signals.

Context (tr : transport) (uid : option Z).

(** The guard of [handleSignal] lets the usable senders through. *)
Lemma from_peer_test data p :
  from_peer uid data p →
  negb (truthy (Some p)) || bool_decide (Some p = uid) = false.
Proof.
  intros (_ & Hp & Hu). simpl.
  rewrite bool_decide_eq_false_2 by done.
  destruct (Z.eqb_spec p 0); done.
Qed.

Lemma sender_from_peer m q : sender uid m = Some q ↔ from_peer uid m q.
Proof.
  unfold sender, from_peer. destruct (from_user m) as [q'|]; simpl.
  - destruct (Z.eqb_spec q' 0) as [->|Hne]; simpl.
    + split; [done|]. intros ([= ->] & ? & _). done.
    + destruct (bool_decide_reflect (Some q' = uid)) as [Heq|Hne'].
      * split; [done|]. intros ([= ->] & _ & ?). done.
      * split; [intros [= ->]; done | intros ([= ->] & _); done].
  - split; [done|]. intros (? & _). done.
Qed.

(** What [handleSignal] never touches, and what it never emits. *)
Lemma handleSignal_frame data media s :
  let r := handleSignal tr uid data media s in
  joinSentRef r.1.1 = joinSentRef s ∧
  connected r.1.1 = connected s ∧
  screenStream r.1.1 = screenStream s ∧
  isMuted r.1.1 = isMuted s ∧
  isVideoOff r.1.1 = isVideoOff s ∧
  isScreenSharing r.1.1 = isScreenSharing s ∧
  joins r.1.2 = 0 ∧
  ¬ returns_to_idle r.1.2.
Proof.
  unfold handleSignal, callOn, settle, ensureLocalStream,
    createPeerConnection, returns_to_idle.
  repeat case_match; unpack; repeat split; try done; not_emitted.
Qed.

(** A local stream, once acquired, is kept by [handleSignal]. *)
Lemma handleSignal_localStream data media s st :
  localStream s = Some st →
  localStream (handleSignal tr uid data media s).1.1 = Some st.
Proof.
  intros Hst.
  unfold handleSignal, callOn, settle, ensureLocalStream,
    createPeerConnection.
  rewrite Hst.
  repeat case_match; unpack; try done; congruence.
Qed.

(** What [settle] yields when the calls were rejected. *)
Lemma settle_rejected p reply s r e :
  (settle p reply s r).2 = Rejected e →
  r.2 = inr e ∧
  settle p reply s r
  = (set_pcRef (<[p := r.1]> (pcRef s)) s, [], Rejected e).
Proof.
  unfold settle. destruct r as [c [d|e']]; simpl; [done|].
  intros [= ->]. done.
Qed.

Lemma ensureLocalStream_granted media s :
  is_Some (localStream s) ∨ is_Some media →
  ∃ s1 st, ensureLocalStream media s = (s1, Some st) ∧ pcRef s1 = pcRef s.
Proof.
  intros Hm. unfold ensureLocalStream.
  destruct (localStream s) as [st|]; [by eauto|].
  destruct Hm as [[? ?]|[st ->]]; [done|]. by eauto.
Qed.

(** The keys of the table after each building block of the handler. *)
Lemma settle_dom p reply s r :
  dom (pcRef (settle p reply s r).1.1) = {[p]} ∪ dom (pcRef s).
Proof.
  unfold settle. destruct r as [c [d|e]]; simpl; by rewrite dom_insert_L.
Qed.

Lemma createPeerConnection_dom p s :
  {[p]} ∪ dom (pcRef (createPeerConnection p s).2) = {[p]} ∪ dom (pcRef s).
Proof.
  unfold createPeerConnection. destruct (pcRef s !! p); simpl; [done|].
  rewrite dom_insert_L. by rewrite (assoc_L (∪)), (idemp_L (∪)).
Qed.

Lemma callOn_dom p op s :
  dom (pcRef (callOn tr p op s).1.1) = dom (pcRef s).
Proof.
  unfold callOn. destruct (pcRef s !! p) as [c0|] eqn:Hpc; [|done].
  destruct (tr_ok tr c0 op); [|done]. simpl. rewrite dom_insert_L.
  apply subseteq_union_1_L, singleton_subseteq_l, elem_of_dom. eauto.
Qed.

(** One message: the keys of the table afterwards. *)
Lemma handleSignal_dom_eq m media s :
  is_Some (localStream s) ∨ is_Some media →
  dom (pcRef (handleSignal tr uid m media s).1.1)
  = match sender uid m with
    | Some q =>
        match type m with
        | TJoin => {[q]} ∪ dom (pcRef s)
        | TOffer =>
            if bool_decide (to_user m = uid)
            then {[q]} ∪ dom (pcRef s) else dom (pcRef s)
        | TUserLeft =>
            match user_id m with
            | Some pid => dom (pcRef s) ∖ {[pid]}
            | None => dom (pcRef s)
            end
        | _ => dom (pcRef s)
        end
    | None => dom (pcRef s)
    end.
Proof.
  intros Hmedia. unfold handleSignal, sender.
  destruct (from_user m) as [q|]; [|done].
  destruct (negb (truthy (Some q)) || bool_decide (Some q = uid)); [done|].
  destruct (type m).
  - destruct (ensureLocalStream_granted media s Hmedia)
      as (s1 & st & -> & Hs1).
    pose proof (createPeerConnection_dom q s1) as Hc.
    destruct (createPeerConnection q s1) as [c s2]. simpl in Hc.
    by rewrite settle_dom, Hc, Hs1.
  - destruct (bool_decide (to_user m = uid)); [|done].
    pose proof (createPeerConnection_dom q s) as Hc.
    assert (Hls : is_Some (localStream (createPeerConnection q s).2)
                  ∨ is_Some media).
    { unfold createPeerConnection. destruct (pcRef s !! q); done. }
    destruct (createPeerConnection q s) as [c s1]. simpl in Hc, Hls.
    destruct (ensureLocalStream_granted media s1 Hls)
      as (s2 & st & -> & Hs2).
    by rewrite settle_dom, Hs2, Hc.
  - destruct (bool_decide (to_user m = uid)); [|done]. apply callOn_dom.
  - destruct (candidate m); [|done].
    destruct (bool_decide (to_user m = uid)); [|done]. apply callOn_dom.
  - destruct (user_id m); [|done]. simpl. by rewrite dom_delete_L.
  - done.
Qed.

(** One message: who is in the table afterwards. *)
Lemma handleSignal_dom m media s p :
  is_Some (localStream s) ∨ is_Some media →
  p ∈ dom (pcRef (handleSignal tr uid m media s).1.1) ↔
  creates uid p m ∨ (p ∈ dom (pcRef s) ∧ ¬ removes uid p m).
Proof.
  intros Hmedia. rewrite (handleSignal_dom_eq m media s Hmedia).
  unfold creates, removes.
  destruct (sender uid m) as [q|] eqn:Hs.
  - apply sender_from_peer in Hs.
    assert (Hq : ∀ q', from_peer uid m q' → q' = q).
    { intros q' [Hf' _]. destruct Hs as [Hf _]. congruence. }
    destruct (type m) eqn:Hty.
    + rewrite elem_of_union, elem_of_singleton. split.
      * intros [->|H]; [by eauto|]. right. split; [done|]. by intros (? & _).
      * intros [[Hp _]|[H _]]; [left; by apply Hq|by right].
    + destruct (bool_decide_reflect (to_user m = uid)) as [Hto|Hto].
      * rewrite elem_of_union, elem_of_singleton. split.
        -- intros [->|H]; [by eauto|]. right. split; [done|].
           by intros (? & _).
        -- intros [[Hp _]|[H _]]; [left; by apply Hq|by right].
      * split.
        -- intros H. right. split; [done|]. by intros (? & _).
        -- intros [[_ [?|[_ ?]]]|[H _]]; done.
    + split.
      * intros H. right. split; [done|]. by intros (? & _).
      * intros [[_ [?|[? _]]]|[H _]]; done.
    + split.
      * intros H. right. split; [done|]. by intros (? & _).
      * intros [[_ [?|[? _]]]|[H _]]; done.
    + destruct (user_id m) as [pid|].
      * rewrite elem_of_difference, elem_of_singleton. split.
        -- intros [H Hne]. right. split; [done|].
           intros (_ & [= ->] & _). done.
        -- intros [[_ [?|[? _]]]|[H Hnr]]; try done. split; [done|].
           intros ->. apply Hnr. eauto.
      * split.
        -- intros H. right. split; [done|]. by intros (_ & ? & _).
        -- intros [[_ [?|[? _]]]|[H _]]; done.
    + split.
      * intros H. right. split; [done|]. by intros (? & _).
      * intros [[_ [?|[? _]]]|[H _]]; done.
  - assert (Hno : ∀ q, ¬ from_peer uid m q).
    { intros q Hq. apply sender_from_peer in Hq. congruence. }
    split.
    + intros H. right. split; [done|]. intros (_ & _ & q & Hq).
      by apply (Hno q).
    + intros [[Hq _]|[H _]]; [by apply Hno in Hq|done].
Qed.

End Signals.

(** ** Candidates *)

(** C1, as stated, fails: with a transport that refuses a candidate
    before the remote description is set, a candidate from participant 2
    that arrives before 2's answer is refused and kept nowhere; after the
    answer the connection has no candidate, whereas the same two messages
    in the other order leave it with the candidate applied. *)
Lemma early_candidate_is_lost :
  (remoteDescription <$> pcRef offered !! 2%Z) = Some None ∧
  handleSignal strict me (sigIce 2 1 5) None offered
  = (offered, [], Rejected NegotiationFailure) ∧
  (iceCandidates <$>
     pcRef (receive strict me
              [(sigIce 2 1 5, None); (sigAnswer 2 1 7, None)] offered)
     !! 2%Z) = Some [] ∧
  (iceCandidates <$>
     pcRef (receive strict me
              [(sigAnswer 2 1 7, None); (sigIce 2 1 5, None)] offered)
     !! 2%Z) = Some [5].
Proof. repeat split; by vm_compute. Qed.

(** C1, amended: a candidate addressed to the local participant, from a
    participant whose connection is in the table, is handed to the
    transport at once, whether or not the remote description is set, and
    nothing is queued: accepted, it is applied after the candidates
    already applied, in arrival order; refused, the handler is rejected
    and the state is unchanged, so the candidate is not kept. *)
Theorem candidate_applied_at_once tr uid data media s p c x :
  type data = TIceCandidate → from_peer uid data p →
  to_user data = uid → candidate data = Some x →
  pcRef s !! p = Some c →
  handleSignal tr uid data media s
  = if tr_ok tr c (AddIceCandidate x)
    then (set_pcRef
            (<[p := with_candidates (iceCandidates c ++ [x]) c]> (pcRef s))
            s, [], Done)
    else (s, [], Rejected NegotiationFailure).
Proof.
  intros Hty Hfrom Hto Hx Hpc. unfold handleSignal.
  destruct Hfrom as (Hf & Hrest). rewrite Hf.
  rewrite (from_peer_test uid data p) by done.
  rewrite Hty, Hx, bool_decide_eq_true_2 by done.
  unfold callOn. rewrite Hpc. done.
Qed.

Lemma candidate_applied_at_once_witness :
  handleSignal strict me (sigIce 2 1 5) None offered
  = if tr_ok strict (Pc 0 [(1, 1); (2, 1)] (Some 2) None [] false)
         (AddIceCandidate 5)
    then (set_pcRef
            (<[2%Z := with_candidates
                        (iceCandidates
                           (Pc 0 [(1, 1); (2, 1)] (Some 2) None [] false)
                         ++ [5])
                        (Pc 0 [(1, 1); (2, 1)] (Some 2) None [] false)]>
               (pcRef offered))
            offered, [], Done)
    else (offered, [], Rejected NegotiationFailure).
Proof.
  apply (candidate_applied_at_once strict me (sigIce 2 1 5) None offered
           2%Z (Pc 0 [(1, 1); (2, 1)] (Some 2) None [] false) 5).
  - reflexivity.
  - unfold from_peer, me. simpl. repeat split; [lia | congruence].
  - reflexivity.
  - reflexivity.
  - vm_compute. reflexivity.
Defined.

(** ** Membership of the connection table *)

(** C2, as stated, fails: an answer from participant 2, who never joined
    nor offered, creates no connection, although 2 has sent a message
    that is not a departure; the same holds for a candidate. *)
Lemma answer_creates_no_session :
  2%Z ∈ promised_peers [sigAnswer 2 1 7] ∅ ∧
  (2%Z ∉ dom (pcRef (receive permissive me [(sigAnswer 2 1 7, None)]
                       (set_localStream (Some cam) init)))) ∧
  2%Z ∈ promised_peers [sigIce 2 1 5] ∅ ∧
  (2%Z ∉ dom (pcRef (receive permissive me [(sigIce 2 1 5, None)]
                       (set_localStream (Some cam) init)))).
Proof.
  repeat split; try (by vm_compute);
    simpl; apply elem_of_union_l, elem_of_singleton; done.
Qed.

Section Membership.

Context (tr : transport) (uid : option Z).

(** A held local stream stays held from one message to the next. *)
Lemma stream_held_step data media s :
  is_Some (localStream s) →
  is_Some (localStream (handleSignal tr uid data media s).1.1).
Proof.
  intros [st Hst].
  rewrite (handleSignal_localStream tr uid data media s st Hst). eauto.
Qed.

(** A sequence of messages: who is in the table afterwards. *)
Lemma receive_dom msgs s p :
  is_Some (localStream s) →
  p ∈ dom (pcRef (receive tr uid msgs s)) ↔
  (∃ pre m post, msgs = pre ++ m :: post ∧ creates uid p m.1 ∧
                 Forall (fun m' => ¬ removes uid p m'.1) post) ∨
  (p ∈ dom (pcRef s) ∧ Forall (fun m' => ¬ removes uid p m'.1) msgs).
Proof.
  revert s. induction msgs as [|m msgs IH]; intros s Hg.
  - simpl. split.
    + intros H. right. split; [done|constructor].
    + intros [(pre & m & post & Heq & _)|[H _]]; [|done].
      by destruct pre.
  - pose proof (stream_held_step m.1 m.2 s Hg) as Hg'.
    unfold receive. simpl. fold (receive tr uid msgs).
    rewrite (IH _ Hg'),
      (handleSignal_dom tr uid m.1 m.2 s p (or_introl Hg)).
    split.
    + intros [(pre & m' & post & -> & Hc & Hpost)|[[Hc|[Hin Hnr]] Hall]].
      * left. exists (m :: pre), m', post. done.
      * left. exists [], m, msgs. done.
      * right. split; [done|]. by constructor.
    + intros [(pre & m' & post & Heq & Hc & Hpost)|[Hin Hall]].
      * destruct pre as [|m0 pre]; simpl in Heq;
          injection Heq as -> ->.
        -- right. split; [by left|done].
        -- left. exists pre, m', post. done.
      * inversion Hall; subst. right. split; [|done]. right. done.
Qed.

(** C2, amended: starting from an empty table, with the local stream
    already held, after a sequence of messages the table holds exactly
    the participants from whom some message was a join, or an offer
    addressed to the local participant, (sent under a usable sender
    identifier) that no later departure notice names; answers and
    candidates add nobody, and a departure notice removes the
    participant it names, provided it carries a usable sender. *)
Theorem peer_table_membership msgs s p :
  pcRef s = ∅ → is_Some (localStream s) →
  p ∈ dom (pcRef (receive tr uid msgs s)) ↔
  ∃ pre m post, msgs = pre ++ m :: post ∧ creates uid p m.1 ∧
                Forall (fun m' => ¬ removes uid p m'.1) post.
Proof.
  intros Hempty Hg. rewrite (receive_dom msgs s p Hg).
  rewrite Hempty, dom_empty_L. split; [|by left].
  intros [H|[H _]]; [done|]. by apply not_elem_of_empty in H.
Qed.

End Membership.

(** Participant 2 joins and leaves, participant 3 offers. *)
Lemma peer_table_membership_witness :
  3%Z ∈ dom (pcRef (receive permissive me
                      come_and_go
                      (set_localStream (Some cam) init))) ↔
  ∃ pre m post,
    come_and_go = pre ++ m :: post ∧ creates me 3 m.1 ∧
    Forall (fun m' => ¬ removes me 3 m'.1) post.
Proof.
  apply (peer_table_membership permissive me come_and_go
           (set_localStream (Some cam) init) 3%Z).
  - reflexivity.
  - simpl. eexists. reflexivity.
Defined.

(** The table after that sequence: 3 is in, 2 is out. *)
Example peer_table_sample :
  dom (pcRef (receive permissive me
                come_and_go
                (set_localStream (Some cam) init))) = {[3%Z]}.
Proof. by vm_compute. Qed.

(** ** The join announcement *)

Section Announcement.

Context (tr : transport) (uid : option Z).

(** Handlers other than the join effect announce nothing and leave
    [joinSentRef] alone. *)
Lemma handle_joins ev s :
  joins (handle tr uid ev s).2 = 0 ∧
  joinSentRef (handle tr uid ev s).1 = joinSentRef s.
Proof.
  destruct ev as [media|b|data media|p r|p c| | |d| |]; simpl.
  - unfold start. destruct media; done.
  - done.
  - pose proof (handleSignal_frame tr uid data media s) as (Hj & _ & _ & _ & _ & _ & Hn & _).
    destruct (handleSignal tr uid data media s) as [[s' out] [|e]];
      simpl in *; split; try done.
    clear Hj. induction out as [|o out IH]; [done|].
    destruct o as [[]| | |]; simpl in *; try done; auto.
  - done.
  - destruct c; done.
  - done.
  - done.
  - unfold startScreenShare. destruct d; [|done].
    destruct (existsb _ _); done.
  - done.
  - done.
Qed.

(** Run a second time on an unchanged state, the join effect does
    nothing. *)
Lemma joinEffect_again s :
  joinEffect (joinEffect s).1 = ((joinEffect s).1, []).
Proof.
  unfold joinEffect.
  destruct (connected s) eqn:Hc, (localStream s) eqn:Hl,
    (joinSentRef s) eqn:Hj; simpl; rewrite ?Hc, ?Hl, ?Hj; done.
Qed.

(** One step announces at most once, exactly when it sets the flag. *)
Lemma step_joins ev s :
  joins (step tr uid ev s).2 + sent_flag s = sent_flag (step tr uid ev s).1.
Proof.
  unfold step.
  pose proof (handle_joins ev s) as [Hn Hf].
  destruct (handle tr uid ev s) as [s1 out1]; simpl in *.
  unfold joinEffect, sent_flag.
  assert (Happ : ∀ l, joins (out1 ++ l) = joins l).
  { intros l. clear Hf. induction out1 as [|o out1 IH]; [done|].
    destruct o as [[]| | |]; simpl in *; try done; auto. }
  destruct (connected s1) eqn:Hc, (localStream s1) eqn:Hl,
    (joinSentRef s1) eqn:Hj; simpl; rewrite Happ, <- Hf, ?Hj; done.
Qed.

(** A step that announces ends in a ready state. *)
Lemma step_joins_ready ev s :
  joins (step tr uid ev s).2 ≠ 0 → ready (step tr uid ev s).1.
Proof.
  unfold step.
  pose proof (handle_joins ev s) as [Hn _].
  destruct (handle tr uid ev s) as [s1 out1]; simpl in *.
  assert (Happ : ∀ l, joins (out1 ++ l) = joins l).
  { intros l. induction out1 as [|o out1 IH]; [done|].
    destruct o as [[]| | |]; simpl in *; try done; auto. }
  unfold joinEffect, ready.
  destruct (connected s1) eqn:Hc, (localStream s1) eqn:Hl,
    (joinSentRef s1) eqn:Hj; simpl; rewrite Happ; simpl; done.
Qed.

(** After a step, a ready state has announced. *)
Lemma step_ready_sent ev s :
  ready (step tr uid ev s).1 → joinSentRef (step tr uid ev s).1 = true.
Proof.
  unfold step.
  destruct (handle tr uid ev s) as [s1 out1]; simpl.
  unfold joinEffect, ready.
  destruct (connected s1) eqn:Hc, (localStream s1) eqn:Hl,
    (joinSentRef s1) eqn:Hj; simpl; rewrite ?Hc, ?Hl, ?Hj;
    try done; intros [? [? ?]]; done.
Qed.

Lemma run_app pre post s :
  run tr uid (pre ++ post) s =
  ((run tr uid post (run tr uid pre s).1).1,
   (run tr uid pre s).2 ++ (run tr uid post (run tr uid pre s).1).2).
Proof.
  revert s. induction pre as [|ev pre IH]; intros s; simpl.
  - destruct (run tr uid post s); done.
  - destruct (step tr uid ev s) as [s1 out1]. rewrite IH.
    destruct (run tr uid pre s1) as [s2 out2]; simpl.
    destruct (run tr uid post s2) as [s3 out3]; simpl.
    by rewrite app_assoc.
Qed.

Lemma joins_app out1 out2 : joins (out1 ++ out2) = joins out1 + joins out2.
Proof.
  induction out1 as [|o out1 IH]; [done|].
  destruct o as [[]| | |]; simpl; rewrite ?IH; done.
Qed.

(** Over a run, the announcements are counted by the flag. *)
Lemma run_joins evs s :
  joins (run tr uid evs s).2 + sent_flag s = sent_flag (run tr uid evs s).1.
Proof.
  revert s. induction evs as [|ev evs IH]; intros s; simpl; [done|].
  pose proof (step_joins ev s) as Hs.
  destruct (step tr uid ev s) as [s1 out1]; simpl in *.
  specialize (IH s1).
  destruct (run tr uid evs s1) as [s2 out2]; simpl in *.
  rewrite joins_app. lia.
Qed.

(** The flag is set exactly when some earlier point of the run was
    ready. *)
Lemma run_sent_iff evs s :
  joinSentRef s = false → ¬ ready s →
  joinSentRef (run tr uid evs s).1 = true ↔
  ∃ pre post, evs = pre ++ post ∧ ready (run tr uid pre s).1.
Proof.
  revert s. induction evs as [|ev evs IH]; intros s Hf Hnr; simpl.
  - split; [congruence|].
    intros (pre & post & Heq & Hr).
    symmetry in Heq. apply app_eq_nil in Heq as [-> ->]. done.
  - pose proof (step_joins ev s) as Hs.
    pose proof (step_joins_ready ev s) as Hjr.
    pose proof (step_ready_sent ev s) as Hrs.
    pose proof (run_joins evs (step tr uid ev s).1) as Hrun.
    specialize (IH (step tr uid ev s).1).
    destruct (step tr uid ev s) as [s1 out1] eqn:Hstep; simpl in *.
    destruct (run tr uid evs s1) as [s2 out2] eqn:Hrn; simpl in *.
    unfold sent_flag in *. rewrite Hf in Hs.
    destruct (joinSentRef s1) eqn:Hf1.
    + assert (Hr1 : ready s1) by (apply Hjr; lia).
      split.
      * intros _. exists [ev], evs. split; [done|].
        simpl. rewrite Hstep. done.
      * intros _. destruct (joinSentRef s2); [done|lia].
    + assert (Hnr1 : ¬ ready s1) by (intros Hr; apply Hrs in Hr; done).
      rewrite (IH eq_refl Hnr1). split.
      * intros (pre & post & -> & Hr). exists (ev :: pre), post.
        split; [done|]. simpl. rewrite Hstep.
        destruct (run tr uid pre s1); done.
      * intros (pre & post & Heq & Hr).
        destruct pre as [|ev' pre]; [done|].
        simpl in Heq. injection Heq as -> ->.
        exists pre, post. split; [done|].
        simpl in Hr. rewrite Hstep in Hr.
        destruct (run tr uid pre s1); done.
Qed.

(** When the channel connects with the stream held, or the stream
    arrives with the channel connected, the state is ready. *)
Lemma step_connected_ready s :
  is_Some (localStream s) → ready (step tr uid (EvConnected true) s).1.
Proof.
  intros Hl. unfold step, handle, joinEffect, ready. simpl.
  destruct (bool_decide (is_Some (localStream s)) && negb (joinSentRef s));
    done.
Qed.

Lemma step_start_ready st s :
  connected s = true → ready (step tr uid (EvStart (Some st)) s).1.
Proof.
  intros Hc. unfold step, handle, start, joinEffect, ready. simpl.
  rewrite Hc. simpl.
  destruct (joinSentRef s); simpl; split; try done; by eexists.
Qed.

Lemma run_snoc pre ev s :
  (run tr uid (pre ++ [ev]) s).1 = (step tr uid ev (run tr uid pre s).1).1.
Proof.
  rewrite run_app. simpl.
  by destruct (step tr uid ev (run tr uid pre s).1).
Qed.

(** No event takes the local stream away, and only the channel changes
    the connected flag. *)
Lemma joinEffect_cells s :
  localStream (joinEffect s).1 = localStream s ∧
  connected (joinEffect s).1 = connected s.
Proof.
  unfold joinEffect.
  by destruct (connected s && bool_decide (is_Some (localStream s))
               && negb (joinSentRef s)).
Qed.

Lemma step_keeps_stream ev s :
  is_Some (localStream s) → is_Some (localStream (step tr uid ev s).1).
Proof.
  intros [st Hst]. unfold step.
  assert (Hh : is_Some (localStream (handle tr uid ev s).1)).
  { destruct ev as [media|b|data media|p r|p c| | |d| |]; simpl;
      rewrite ?Hst; try by eexists.
    - unfold start. destruct media; simpl; rewrite ?Hst; by eexists.
    - pose proof (handleSignal_localStream tr uid data media s st Hst) as H.
      destruct (handleSignal tr uid data media s) as [[s' out] [|e]];
        simpl in *; rewrite H; by eexists.
    - unfold startScreenShare. destruct d; simpl; rewrite Hst; by eexists. }
  destruct (handle tr uid ev s) as [s1 out1]; simpl in *.
  destruct (joinEffect_cells s1) as [Hj _].
  destruct (joinEffect s1) as [s2 out2]; simpl in *. by rewrite Hj.
Qed.

Lemma run_keeps_stream evs s :
  is_Some (localStream s) → is_Some (localStream (run tr uid evs s).1).
Proof.
  revert s. induction evs as [|ev evs IH]; intros s Hl; [done|]. simpl.
  pose proof (step_keeps_stream ev s Hl) as Hs.
  destruct (step tr uid ev s) as [s1 out1]; simpl in *.
  specialize (IH s1 Hs). by destruct (run tr uid evs s1).
Qed.

Lemma step_keeps_connected ev s :
  ev ≠ EvConnected false → connected s = true →
  connected (step tr uid ev s).1 = true.
Proof.
  intros Hev Hc. unfold step.
  assert (Hh : connected (handle tr uid ev s).1 = true).
  { destruct ev as [media|b|data media|p r|p c| | |d| |]; simpl; try done.
    - unfold start. by destruct media.
    - by destruct b.
    - pose proof (handleSignal_frame tr uid data media s) as (_ & H & _).
      destruct (handleSignal tr uid data media s) as [[s' out] [|e]];
        simpl in *; congruence.
    - unfold startScreenShare. by destruct d. }
  destruct (handle tr uid ev s) as [s1 out1]; simpl in *.
  destruct (joinEffect_cells s1) as [_ Hj].
  destruct (joinEffect s1) as [s2 out2]; simpl in *. by rewrite Hj.
Qed.

Lemma run_keeps_connected evs s :
  EvConnected false ∉ evs → connected s = true →
  connected (run tr uid evs s).1 = true.
Proof.
  revert s. induction evs as [|ev evs IH]; intros s Hno Hc; [done|].
  simpl. apply not_elem_of_cons in Hno as [Hev Hno].
  pose proof (step_keeps_connected ev s (not_eq_sym Hev) Hc) as Hs.
  destruct (step tr uid ev s) as [s1 out1]; simpl in *.
  specialize (IH s1 Hno Hs). by destruct (run tr uid evs s1).
Qed.

(** C3, amended: in every execution from mount, the join announcement is
    sent at most once; it is sent exactly once in the executions that
    reach a point where the signaling channel is connected and the local
    stream is acquired, and not at all in the others; the step that
    sends it ends with both conditions true and no join was sent before,
    so it is never sent before them.  In particular it is sent exactly
    once in every execution in which the channel connects while the
    stream is held, or the stream is acquired while the channel is
    connected: whenever the start effect obtains the stream and the
    channel connects later, and whenever the channel connects and the
    start effect obtains the stream before the channel drops. *)
Theorem join_announced_once evs :
  joins (run tr uid evs init).2 ≤ 1 ∧
  (joins (run tr uid evs init).2 = 1 ↔
   ∃ pre post, evs = pre ++ post ∧ ready (run tr uid pre init).1) ∧
  (∀ pre ev post, evs = pre ++ ev :: post →
     joins (step tr uid ev (run tr uid pre init).1).2 ≠ 0 →
     joins (run tr uid pre init).2 = 0 ∧
     ready (step tr uid ev (run tr uid pre init).1).1) ∧
  (∀ pre post, evs = pre ++ EvConnected true :: post →
     is_Some (localStream (run tr uid pre init).1) →
     joins (run tr uid evs init).2 = 1) ∧
  (∀ pre st post, evs = pre ++ EvStart (Some st) :: post →
     connected (run tr uid pre init).1 = true →
     joins (run tr uid evs init).2 = 1) ∧
  (∀ pre st mid post,
     evs = pre ++ EvStart (Some st) :: mid ++ EvConnected true :: post →
     joins (run tr uid evs init).2 = 1) ∧
  (∀ pre mid st post,
     evs = pre ++ EvConnected true :: mid ++ EvStart (Some st) :: post →
     EvConnected false ∉ mid →
     joins (run tr uid evs init).2 = 1).
Proof.
  assert (Hni : ¬ ready init) by (intros [? _]; done).
  pose proof (run_joins evs init) as Hrun.
  pose proof (run_sent_iff evs init eq_refl Hni) as Hiff.
  unfold sent_flag in Hrun. simpl in Hrun.
  assert (Hone : joins (run tr uid evs init).2 = 1 ↔
            ∃ pre post, evs = pre ++ post ∧ ready (run tr uid pre init).1).
  { split.
    - intros H1. apply Hiff.
      destruct (joinSentRef (run tr uid evs init).1); [done|lia].
    - intros Hex. apply Hiff in Hex. rewrite Hex in Hrun. lia. }
  assert (Hconn : ∀ pre post, evs = pre ++ EvConnected true :: post →
            is_Some (localStream (run tr uid pre init).1) →
            joins (run tr uid evs init).2 = 1).
  { intros pre post -> Hl. apply Hone.
    exists (pre ++ [EvConnected true]), post.
    split; [by rewrite <- app_assoc|].
    rewrite run_snoc. by apply step_connected_ready. }
  assert (Hstart : ∀ pre st post, evs = pre ++ EvStart (Some st) :: post →
            connected (run tr uid pre init).1 = true →
            joins (run tr uid evs init).2 = 1).
  { intros pre st post -> Hc. apply Hone.
    exists (pre ++ [EvStart (Some st)]), post.
    split; [by rewrite <- app_assoc|].
    rewrite run_snoc. by apply step_start_ready. }
  split; [|split; [done|split; [|split; [done|split; [done|split]]]]].
  - destruct (joinSentRef (run tr uid evs init).1); lia.
  - intros pre ev post _ Hj. split; [|by apply step_joins_ready].
    pose proof (run_joins pre init) as Hpre.
    pose proof (step_joins ev (run tr uid pre init).1) as Hst.
    unfold sent_flag in *. simpl in Hpre.
    destruct (joinSentRef (run tr uid pre init).1);
      destruct (joinSentRef (step tr uid ev (run tr uid pre init).1).1);
      lia.
  - intros pre st mid post Hevs.
    apply (Hconn (pre ++ EvStart (Some st) :: mid) post).
    { by rewrite Hevs, <- app_assoc. }
    rewrite run_app. simpl.
    assert (Hl : is_Some (localStream
              (step tr uid (EvStart (Some st)) (run tr uid pre init).1).1)).
    { unfold step, handle, start. simpl.
      destruct (joinEffect_cells
                  (set_localStream (Some st)
                     (set_gumCalls (S (gumCalls (run tr uid pre init).1))
                        (run tr uid pre init).1))) as [Hj _].
      destruct (joinEffect _) as [s2 out2]; simpl in *.
      rewrite Hj. by eexists. }
    destruct (step tr uid (EvStart (Some st)) (run tr uid pre init).1)
      as [s1 out1]; simpl in *.
    pose proof (run_keeps_stream mid s1 Hl) as Hm.
    by destruct (run tr uid mid s1).
  - intros pre mid st post Hevs Hno.
    apply (Hstart (pre ++ EvConnected true :: mid) st post).
    { by rewrite Hevs, <- app_assoc. }
    rewrite run_app. simpl.
    assert (Hc : connected
              (step tr uid (EvConnected true) (run tr uid pre init).1).1
              = true).
    { unfold step, handle. simpl.
      destruct (joinEffect_cells
                  (set_connected true (run tr uid pre init).1)) as [_ Hj].
      destruct (joinEffect _) as [s2 out2]; simpl in *. by rewrite Hj. }
    destruct (step tr uid (EvConnected true) (run tr uid pre init).1)
      as [s1 out1]; simpl in *.
    pose proof (run_keeps_connected mid s1 Hno Hc) as Hm.
    by destruct (run tr uid mid s1).
Qed.

End Announcement.

(** C3, as stated, fails: an execution whose media request is refused
    sends no join at all, although the signaling channel is connected;
    so the join is not sent exactly once in every execution. *)
Lemma join_not_sent_without_media :
  connected (run permissive me [EvStart None; EvConnected true] init).1
  = true ∧
  joins (run permissive me [EvStart None; EvConnected true] init).2 = 0 ∧
  ¬ (∀ evs, joins (run permissive me evs init).2 = 1).
Proof.
  split; [by vm_compute|]. split; [by vm_compute|].
  intros H. specialize (H [EvStart None; EvConnected true]).
  vm_compute in H. discriminate H.
Qed.

(** A run in which the channel drops and reconnects after the
    announcement sends one join; a run whose media request is refused
    sends none. *)
Example join_once_sample :
  joins (run permissive me
           [EvConnected true; EvStart (Some cam); EvConnected false;
            EvConnected true; EvSignal (sigJoin 2) None] init).2 = 1 ∧
  joins (run permissive me [EvConnected true; EvStart None] init).2 = 0.
Proof. split; vm_compute; reflexivity. Qed.

(** ** Failure of the initial media acquisition *)

(** C4, as stated, fails: when the first [getUserMedia] is refused, the
    component only logs to the console.  It does not ask to leave the
    call, and the call goes on: once the channel is connected, a join
    from participant 2 makes it request media again, and with media
    granted it sends an offer and announces itself. *)
Lemma media_failure_not_fatal :
  (start None init).2 = [ConsoleError] ∧
  ¬ returns_to_idle (start None init).2 ∧
  (run permissive me
     [EvStart None; EvConnected true; EvSignal (sigJoin 2) (Some cam)]
     init).2
  = [ConsoleError; Send (MOffer 2 2); Send MJoin].
Proof.
  split; [done|]. split; [|by vm_compute].
  unfold returns_to_idle. simpl. intros H. inversion H as [|? ? ? H']; subst.
  inversion H'.
Qed.

(** C4, amended: when the first [getUserMedia] is refused while no local
    stream is held, the refusal is logged to the console and nothing
    else happens: the state is unchanged but for the count of requests,
    the local stream stays absent, [onClose] is not called, and no join
    is announced. *)
Theorem media_failure_logged tr uid (s : state) :
  localStream s = None →
  step tr uid (EvStart None) s
  = (set_gumCalls (S (gumCalls s)) s, [ConsoleError]) ∧
  localStream (step tr uid (EvStart None) s).1 = None ∧
  ¬ returns_to_idle (step tr uid (EvStart None) s).2 ∧
  joins (step tr uid (EvStart None) s).2 = 0.
Proof.
  intros Hn.
  assert (Hstep : step tr uid (EvStart None) s
                  = (set_gumCalls (S (gumCalls s)) s, [ConsoleError])).
  { unfold step, handle, start, joinEffect. simpl. rewrite Hn.
    rewrite andb_false_r. done. }
  rewrite Hstep. simpl. repeat split; try done.
  unfold returns_to_idle. intros H. inversion H as [|? ? ? H']; subst.
  inversion H'.
Qed.

Lemma media_failure_logged_witness :
  step permissive me (EvStart None) init
  = (set_gumCalls (S (gumCalls init)) init, [ConsoleError]) ∧
  localStream (step permissive me (EvStart None) init).1 = None ∧
  ¬ returns_to_idle (step permissive me (EvStart None) init).2 ∧
  joins (step permissive me (EvStart None) init).2 = 0.
Proof. apply (media_failure_logged permissive me init). reflexivity. Defined.

(** ** Starting a screen share *)



(** ** Negotiation failures *)

(** C6, as stated, fails: when the transport refuses the answer of
    participant 2, the handler is rejected with a negotiation failure and
    the state is untouched: the connection of 2 is still in the table,
    and it is not closed. *)
Lemma refused_answer_keeps_session :
  handleSignal deaf me (sigAnswer 2 1 7) None in_call
  = (in_call, [], Rejected NegotiationFailure) ∧
  (pc_closed <$> pcRef in_call !! 2%Z) = Some false ∧
  (pc_closed <$>
     pcRef (handleSignal deaf me (sigAnswer 2 1 7) None in_call).1.1
     !! 2%Z) = Some false.
Proof. repeat split; by vm_compute. Qed.

(** What follows a negotiation failure, however it came about. *)
Lemma negotiation_failure_frame tr uid data media s p :
  from_user data = Some p →
  (handleSignal tr uid data media s).2 = Rejected NegotiationFailure →
  (∃ c, pcRef (handleSignal tr uid data media s).1.1 !! p = Some c ∧
        pc_closed c
        = match pcRef s !! p with
          | Some c0 => pc_closed c0
          | None => false
          end) ∧
  (∀ q, q ≠ p →
        pcRef (handleSignal tr uid data media s).1.1 !! q = pcRef s !! q) ∧
  peers (handleSignal tr uid data media s).1.1 = peers s ∧
  (handleSignal tr uid data media s).1.2 = [].
Proof.
  intros Hf. unfold handleSignal. rewrite Hf.
  destruct (negb (truthy (Some p)) || bool_decide (Some p = uid));
    [done|].
  destruct (type data); try done.
  - (* join: its failures are of other kinds *)
    destruct (ensureLocalStream media s) as [s1 [st|]]; [|done].
    destruct (createPeerConnection p s1) as [c s2].
    intros Hr. apply settle_rejected in Hr as [Hr _].
    by apply join_calls_error in Hr.
  - (* offer *)
    destruct (bool_decide (to_user data = uid)); [|done].
    unfold createPeerConnection, ensureLocalStream.
    destruct (pcRef s !! p) as [c0|] eqn:Hpc; simpl;
      destruct (localStream s) as [st|], media as [st'|]; simpl;
      try done; intros Hr; apply settle_rejected in Hr as [_ ->]; simpl;
      (split; [|split; [|done]]);
      try (eexists; split;
           [apply lookup_insert_eq | by rewrite offer_calls_keep]);
      try (intros q Hq; by rewrite ?lookup_insert_ne by done).
  - (* answer *)
    destruct (bool_decide (to_user data = uid)); [|done].
    unfold callOn. destruct (pcRef s !! p) as [c0|] eqn:Hpc; [|done].
    destruct (tr_ok tr c0 _); [done|]. simpl. intros _.
    rewrite Hpc. split; [eauto|done].
  - (* candidate *)
    destruct (candidate data) as [x|]; [|done].
    destruct (bool_decide (to_user data = uid)); [|done].
    unfold callOn. destruct (pcRef s !! p) as [c0|] eqn:Hpc; [|done].
    destruct (tr_ok tr c0 _); [done|]. simpl. intros _.
    rewrite Hpc. split; [eauto|done].
  - (* departure *)
    destruct (user_id data); done.
Qed.

(** C6, amended: when the transport refuses the remote description of an
    answer, a candidate, or the remote description of an offer (the
    local tracks having been attached), the handler is rejected at that
    call with a negotiation failure.  For an answer or a candidate the
    state is unchanged; for an offer the connection, created if need be,
    stays in the table with the tracks attached.  In every case the
    connection of the sender is in the table afterwards, no more closed
    than before, every other entry of the table is what it was, the
    remote streams shown are unchanged, and nothing is emitted: no
    message, no close of the call. *)
Theorem negotiation_failure_is_local tr uid data media s p :
  from_peer uid data p → to_user data = uid →
  let r := handleSignal tr uid data media s in
  (∀ c, type data = TAnswer → pcRef s !! p = Some c →
        tr_ok tr c (SetRemoteDescription (answer data)) = false →
        r = (s, [], Rejected NegotiationFailure)) ∧
  (∀ c x, type data = TIceCandidate → candidate data = Some x →
          pcRef s !! p = Some c →
          tr_ok tr c (AddIceCandidate x) = false →
          r = (s, [], Rejected NegotiationFailure)) ∧
  (∀ st c1, type data = TOffer →
            let cs := createPeerConnection p s in
            let e := ensureLocalStream media cs.2 in
            e.2 = Some st →
            addTracks tr (stream_id st) (getTracks st) cs.1
            = (c1, inl tt) →
            tr_ok tr c1 (SetRemoteDescription (offer data)) = false →
            r = (set_pcRef (<[p := c1]> (pcRef e.1)) e.1, [],
                 Rejected NegotiationFailure)) ∧
  (r.2 = Rejected NegotiationFailure →
   (∃ c, pcRef r.1.1 !! p = Some c ∧
         pc_closed c
         = match pcRef s !! p with
           | Some c0 => pc_closed c0
           | None => false
           end) ∧
   (∀ q, q ≠ p → pcRef r.1.1 !! q = pcRef s !! q) ∧
   peers r.1.1 = peers s ∧
   r.1.2 = []).
Proof.
  intros Hfrom Hto r. subst r.
  pose proof (from_peer_test uid data p Hfrom) as Hg.
  destruct Hfrom as (Hf & _).
  split; [|split; [|split]].
  - intros c Hty Hpc Hno. unfold handleSignal.
    rewrite Hf, Hg, Hty, bool_decide_eq_true_2 by done.
    unfold callOn. by rewrite Hpc, Hno.
  - intros c x Hty Hx Hpc Hno. unfold handleSignal.
    rewrite Hf, Hg, Hty, Hx, bool_decide_eq_true_2 by done.
    unfold callOn. by rewrite Hpc, Hno.
  - intros st c1 Hty cs e He Ha Hno. subst cs e. unfold handleSignal.
    rewrite Hf, Hg, Hty, bool_decide_eq_true_2 by done.
    destruct (createPeerConnection p s) as [c s1]; simpl in *.
    destruct (ensureLocalStream media s1) as [s2 o]; simpl in *.
    subst o. unfold settle, PcM.bind. rewrite Ha.
    unfold makeAnswer, PcM.bind, PcM.call. by rewrite Hno.
  - by apply negotiation_failure_frame.
Qed.

(** An offer from participant 4, its description refused. *)
Lemma negotiation_failure_is_local_witness :
  let data := sigOffer 4 1 7 in
  let r := handleSignal deaf me data None in_call in
  (∀ c, type data = TAnswer → pcRef in_call !! 4%Z = Some c →
        tr_ok deaf c (SetRemoteDescription (answer data)) = false →
        r = (in_call, [], Rejected NegotiationFailure)) ∧
  (∀ c x, type data = TIceCandidate → candidate data = Some x →
          pcRef in_call !! 4%Z = Some c →
          tr_ok deaf c (AddIceCandidate x) = false →
          r = (in_call, [], Rejected NegotiationFailure)) ∧
  (∀ st c1, type data = TOffer →
            let cs := createPeerConnection 4 in_call in
            let e := ensureLocalStream None cs.2 in
            e.2 = Some st →
            addTracks deaf (stream_id st) (getTracks st) cs.1
            = (c1, inl tt) →
            tr_ok deaf c1 (SetRemoteDescription (offer data)) = false →
            r = (set_pcRef (<[4%Z := c1]> (pcRef e.1)) e.1, [],
                 Rejected NegotiationFailure)) ∧
  (r.2 = Rejected NegotiationFailure →
   (∃ c, pcRef r.1.1 !! 4%Z = Some c ∧
         pc_closed c
         = match pcRef in_call !! 4%Z with
           | Some c0 => pc_closed c0
           | None => false
           end) ∧
   (∀ q, q ≠ 4%Z → pcRef r.1.1 !! q = pcRef in_call !! q) ∧
   peers r.1.1 = peers in_call ∧
   r.1.2 = []).
Proof.
  apply (negotiation_failure_is_local deaf me (sigOffer 4 1 7) None
           in_call 4%Z).
  - unfold from_peer, me. simpl. repeat split; [lia | congruence].
  - reflexivity.
Defined.

(** The refused offer of participant 4 on the sample call: the handler
    is rejected, and the new connection stays with the two local tracks
    attached. *)
Example refused_offer_sample :
  (handleSignal deaf me (sigOffer 4 1 7) None in_call).2
  = Rejected NegotiationFailure ∧
  pcRef (handleSignal deaf me (sigOffer 4 1 7) None in_call).1.1 !! 4%Z
  = Some (Pc 2 [(1, 1); (2, 1)] None None [] false).
Proof. split; vm_compute; reflexivity. Qed.

(** ** Hanging up *)

Lemma stop_all_idem (o : option stream) :
  stop_all <$> (stop_all <$> o) = stop_all <$> o.
Proof.
  destruct o as [st|]; [|done]. simpl. f_equal.
  unfold stop_all. simpl. f_equal.
  rewrite <- list_fmap_compose. apply list_fmap_ext. by intros i [] _.
Qed.

Lemma live_tracks_stopped (o : option stream) :
  live_tracks (stop_all <$> o) = [].
Proof.
  destruct o as [st|]; [|done]. simpl.
  induction (getTracks st) as [|t ts IH]; [done|].
  rewrite fmap_cons, filter_cons. simpl.
  destruct (decide (true = false)); [done|]. done.
Qed.

Lemma open_pcs_closed (m : gmap Z pc) : open_pcs (close <$> m) = ∅.
Proof.
  unfold open_pcs. apply map_empty_filter.
  intros p c Hc. rewrite lookup_fmap in Hc.
  destruct (m !! p) as [c'|]; [|done].
  injection Hc as <-. done.
Qed.

Lemma list_difference_nil_r (l : list nat) : list_difference l [] = l.
Proof.
  induction l as [|x l IH]; [done|]. simpl.
  destruct (decide_rel elem_of x []) as [H|_]; [inversion H|].
  by rewrite IH.
Qed.

Lemma stop_all_stopped (o : option stream) :
  option_Forall2 all_stopped o (stop_all <$> o).
Proof.
  destruct o as [st|]; constructor. split; [done|]. simpl.
  induction (getTracks st) as [|t ts IH]; constructor; done.
Qed.

(** C7: [hangUp] stops every track of the local and of the screen-share
    stream and closes every connection of the table, keeping the handles
    and the table entries where they are and touching nothing else: each
    stream is the same handle with the same tracks, all ended, and each
    participant has the same connection, closed.  So the first call
    releases every resource that was held, and a second call, which
    finds every track ended and every connection closed, leaves the
    state of the first unchanged and releases nothing: each resource is
    released once.  Both calls end normally, emitting their close
    notification and no fault. *)
Theorem hangUp_idempotent (s : state) :
  option_Forall2 all_stopped (localStream s) (localStream (hangUp s).1) ∧
  option_Forall2 all_stopped (screenStream s) (screenStream (hangUp s).1) ∧
  (∀ p, option_Forall2 closed_of (pcRef s !! p)
                       (pcRef (hangUp s).1 !! p)) ∧
  (hangUp s).1
  = set_pcRef (pcRef (hangUp s).1)
      (set_screenStream (screenStream (hangUp s).1)
         (set_localStream (localStream (hangUp s).1) s)) ∧
  (hangUp (hangUp s).1).1 = (hangUp s).1 ∧
  released s (hangUp s).1 = held s ∧
  released (hangUp s).1 (hangUp (hangUp s).1).1 = ([], [], ∅) ∧
  held (hangUp s).1 = ([], [], ∅) ∧
  (hangUp s).2 = [OnClose] ∧
  (hangUp (hangUp s).1).2 = [OnClose].
Proof.
  assert (Hheld : held (hangUp s).1 = ([], [], ∅)).
  { unfold held, hangUp. simpl.
    by rewrite !live_tracks_stopped, open_pcs_closed. }
  assert (Hidem : (hangUp (hangUp s).1).1 = (hangUp s).1).
  { unfold hangUp. simpl. unfold set_pcRef. simpl.
    rewrite !stop_all_idem. f_equal.
    rewrite <- map_fmap_compose. apply map_fmap_ext. by intros i [] _. }
  split; [apply stop_all_stopped|]. split; [apply stop_all_stopped|].
  split.
  { intros p. unfold hangUp. simpl. rewrite lookup_fmap.
    destruct (pcRef s !! p) as [c|]; constructor. by repeat split. }
  split; [done|]. split; [done|]. split; [|split; [|done]].
  - unfold released, held, hangUp. simpl.
    by rewrite !live_tracks_stopped, open_pcs_closed,
      !list_difference_nil_r, map_difference_empty.
  - rewrite Hidem. unfold released, hangUp. simpl.
    by rewrite !live_tracks_stopped, open_pcs_closed, map_difference_diag.
Qed.

(** Hanging up the sample call with a screen share running. *)
Example hangUp_sample :
  let s := (startScreenShare (Some display) in_call).1 in
  held s = ([1; 2], [3], pcRef in_call) ∧
  released s (hangUp s).1 = held s ∧
  (hangUp s).2 = [OnClose].
Proof. cbv zeta. split; [|split]; vm_compute; reflexivity. Qed.

(** ** Mute and camera toggles *)

Lemma same_but_enabled_refl t : same_but_enabled t t.
Proof. done. Qed.

Lemma same_but_enabled_trans t1 t2 t3 :
  same_but_enabled t1 t2 → same_but_enabled t2 t3 → same_but_enabled t1 t3.
Proof. unfold same_but_enabled. intros (?&?&?) (?&?&?). repeat split; congruence. Qed.

Lemma enable_audio_tracks b st :
  Forall2 same_but_enabled (getTracks st) (getTracks (enable_audio b st)).
Proof.
  unfold enable_audio. simpl.
  induction (getTracks st) as [|t ts IH]; [constructor|].
  rewrite fmap_cons. constructor; [|done].
  destruct (is_audio t); done.
Qed.

Lemma enable_video_tracks b st :
  Forall2 same_but_enabled (getTracks st) (getTracks (enable_video b st)).
Proof.
  unfold enable_video. simpl.
  induction (getTracks st) as [|t ts IH]; [constructor|].
  rewrite fmap_cons. constructor; [|done].
  destruct (is_video t); done.
Qed.

Lemma Forall2_same_trans l1 l2 l3 :
  Forall2 same_but_enabled l1 l2 → Forall2 same_but_enabled l2 l3 →
  Forall2 same_but_enabled l1 l3.
Proof.
  intros H12. revert l3.
  induction H12 as [|t1 t2 l1 l2 Ht H12 IH]; intros l3 H23;
    inversion H23; subst; constructor; eauto using same_but_enabled_trans.
Qed.

(** C8: from a state whose local stream is acquired, any sequence of mute
    and camera toggles keeps the same stream handle with the same tracks,
    of which only the enabled flags may differ, requests no capture, and
    leaves the screen stream, the peers and the connections alone. *)
Theorem toggles_keep_stream (ts : list toggle) (s : state) (st : stream) :
  localStream s = Some st →
  ∃ st',
    localStream (toggles ts s) = Some st' ∧
    stream_id st' = stream_id st ∧
    Forall2 same_but_enabled (getTracks st) (getTracks st') ∧
    gumCalls (toggles ts s) = gumCalls s ∧
    screenStream (toggles ts s) = screenStream s ∧
    pcRef (toggles ts s) = pcRef s ∧
    peers (toggles ts s) = peers s.
Proof.
  revert s st. induction ts as [|t ts IH]; intros s st Hst.
  - exists st. repeat split; try done.
    induction (getTracks st); constructor; done.
  - unfold toggles. simpl. fold (toggles ts).
    destruct t.
    + destruct (IH (toggleMute s) (enable_audio (isMuted s) st))
        as (st' & H1 & H2 & H3 & H4 & H5 & H6 & H7).
      { unfold toggleMute. simpl. by rewrite Hst. }
      exists st'. repeat split; try done.
      eapply Forall2_same_trans; [apply enable_audio_tracks|done].
    + destruct (IH (toggleVideo s) (enable_video (isVideoOff s) st))
        as (st' & H1 & H2 & H3 & H4 & H5 & H6 & H7).
      { unfold toggleVideo. simpl. by rewrite Hst. }
      exists st'. repeat split; try done.
      eapply Forall2_same_trans; [apply enable_video_tracks|done].
Qed.

(** Muting then unmuting, on the sample camera stream. *)
Lemma toggles_keep_stream_witness :
  ∃ st',
    localStream (toggles [Mute; Mute] offered) = Some st' ∧
    stream_id st' = stream_id cam ∧
    Forall2 same_but_enabled (getTracks cam) (getTracks st') ∧
    gumCalls (toggles [Mute; Mute] offered) = gumCalls offered ∧
    screenStream (toggles [Mute; Mute] offered) = screenStream offered ∧
    pcRef (toggles [Mute; Mute] offered) = pcRef offered ∧
    peers (toggles [Mute; Mute] offered) = peers offered.
Proof.
  apply (toggles_keep_stream [Mute; Mute] offered cam).
  vm_compute. reflexivity.
Defined.

(** C9, as stated, fails: with no local stream, [toggleMute] and
    [toggleVideo] still flip the flag the controls are rendered from. *)
Lemma toggle_without_stream_changes_state :
  localStream init = None ∧
  isMuted (toggleMute init) ≠ isMuted init ∧
  isVideoOff (toggleVideo init) ≠ isVideoOff init ∧
  toggleMute init ≠ init ∧ toggleVideo init ≠ init.
Proof.
  repeat split; done.
Qed.

(** C9, amended: with no local stream, a toggle touches no track and no
    other part of the state; it flips its own flag and nothing else. *)
Theorem toggle_without_stream (s : state) :
  localStream s = None →
  toggleMute s = set_isMuted (negb (isMuted s)) s ∧
  toggleVideo s = set_isVideoOff (negb (isVideoOff s)) s.
Proof.
  intros Hn. unfold toggleMute, toggleVideo. rewrite Hn. simpl.
  destruct s; simpl in *; subst; done.
Qed.

Lemma toggle_without_stream_witness :
  toggleMute init = set_isMuted (negb (isMuted init)) init ∧
  toggleVideo init = set_isVideoOff (negb (isVideoOff init)) init.
Proof. apply (toggle_without_stream init). reflexivity. Defined.

(** ** A join from a participant already in the table *)




(** The same second join under a transport that accepts the repeated
    [addTrack]: the tracks are attached twice and an offer is sent. *)
Example duplicate_join_accepted_sample :
  (handleSignal permissive me (sigJoin 2) None offered).1.2
  = [Send (MOffer 4 2)] ∧
  (senders <$>
     pcRef (handleSignal permissive me (sigJoin 2) None offered).1.1
     !! 2%Z) = Some [(1, 1); (2, 1); (1, 1); (2, 1)].
Proof. split; vm_compute; reflexivity. Qed.

(** * Further properties *)

(** ** Getting or creating a connection *)

(** X1: [createPeerConnection] stores the connection it returns under
    the participant, constructs one connection when the participant had
    none and none otherwise, and leaves every other entry alone; called
    again, it returns the same object and constructs nothing. *)
Theorem createPeerConnection_get_or_create (p : Z) (s : state) :
  let r := createPeerConnection p s in
  pcRef r.2 !! p = Some r.1 ∧
  (∀ q, q ≠ p → pcRef r.2 !! q = pcRef s !! q) ∧
  pcCreated r.2
  = (if bool_decide (is_Some (pcRef s !! p)) then pcCreated s
     else S (pcCreated s)) ∧
  (∀ c, pcRef s !! p = Some c → r = (c, s)) ∧
  createPeerConnection p r.2 = (r.1, r.2).
Proof.
  unfold createPeerConnection.
  destruct (pcRef s !! p) as [c|] eqn:Hpc; simpl.
  - rewrite Hpc. repeat split; try done. by intros c' [= ->].
  - rewrite lookup_insert_eq. split; [done|]. split; [|done].
    intros q Hq. by rewrite lookup_insert_ne.
Qed.

(** ** Messages the handler discards *)

Lemma state_eta (s : state) :
  State (peers s) (localStream s) (screenStream s) (isMuted s)
    (isVideoOff s) (isScreenSharing s) (pcRef s) (joinSentRef s)
    (connected s) (pcCreated s) (gumCalls s) = s.
Proof. by destruct s. Qed.

Lemma sender_guard uid data :
  sender uid data = None →
  match from_user data with
  | Some p => negb (truthy (Some p)) || bool_decide (Some p = uid) = true
  | None => True
  end.
Proof.
  unfold sender. destruct (from_user data) as [p|]; [|done].
  by destruct (negb (truthy (Some p)) || bool_decide (Some p = uid)).
Qed.

(** X2: a message without usable sender (absent, falsy or the local
    participant itself), of unknown type, addressed to somebody else,
    carrying no candidate, answering or completing a connection that
    does not exist, or announcing the departure of nobody the component
    knows, is discarded: the state is unchanged, nothing is emitted, and
    the handler ends normally. *)
Theorem discarded_unchanged tr uid data media s :
  discarded uid s data →
  handleSignal tr uid data media s = (s, [], Done).
Proof.
  intros Hd. unfold handleSignal.
  destruct (from_user data) as [p|] eqn:Hfrom; [|done].
  destruct (negb (truthy (Some p)) || bool_decide (Some p = uid)) eqn:Hg;
    [done|].
  destruct Hd as [Hs|[Hty|[(Hj & Hl & Hto)|[[Hty Hc]|[[Hty Hno]|[Hty Hno]]]]]].
  - apply sender_guard in Hs. rewrite Hfrom in Hs. congruence.
  - by rewrite Hty.
  - rewrite (bool_decide_eq_false_2 _ Hto).
    destruct (type data); try done. by destruct (candidate data).
  - by rewrite Hty, Hc.
  - specialize (Hno p Hfrom). unfold callOn. rewrite Hno.
    destruct Hty as [-> | ->];
      [by destruct (bool_decide (to_user data = uid))|].
    destruct (candidate data); [|done].
    by destruct (bool_decide (to_user data = uid)).
  - rewrite Hty. destruct (user_id data) as [pid|] eqn:Hpid; [|done].
    destruct (Hno pid eq_refl) as [Hpc Hpeers].
    rewrite (delete_id _ _ Hpc), (delete_id _ _ Hpeers).
    unfold set_peers, set_pcRef. simpl. by rewrite state_eta.
Qed.

(** A candidate from participant 4, who has no connection. *)
Lemma discarded_unchanged_witness :
  handleSignal strict me (sigIce 4 1 5) None in_call = (in_call, [], Done).
Proof.
  apply (discarded_unchanged strict me (sigIce 4 1 5) None in_call).
  right. right. right. right. left. split; [by right|].
  intros p [= <-]. vm_compute. reflexivity.
Defined.

(** ** What the calls leave on a connection *)

Section CallResults.

Context (tr : transport).

(** The track loop attaches a prefix of the tracks, all of them when it
    is not rejected. *)
Lemma addTracks_prefix sid ts c :
  ∃ k, (addTracks tr sid ts c).1
       = with_senders
           (senders c ++ take k ((fun t => (track_id t, sid)) <$> ts)) c.
Proof.
  revert c. induction ts as [|t ts IH]; intros c.
  - exists 0. simpl. unfold with_senders. rewrite app_nil_r. by destruct c.
  - cbn [addTracks]. unfold PcM.bind, PcM.call.
    destruct (tr_ok tr c _).
    + destruct (IH (apply_op (AddTrack (track_id t) sid) c)) as [k Hk].
      exists (S k). rewrite Hk. unfold with_senders. simpl.
      by rewrite <- app_assoc.
    + exists 0. simpl. unfold with_senders. rewrite app_nil_r.
      by destruct c.
Qed.

Lemma addTracks_done sid ts c c' u :
  addTracks tr sid ts c = (c', inl u) →
  c' = with_senders (senders c ++ ((fun t => (track_id t, sid)) <$> ts)) c.
Proof.
  revert c. induction ts as [|t ts IH]; intros c.
  - simpl. unfold PcM.ret. intros [= <-]. unfold with_senders.
    rewrite app_nil_r. by destruct c.
  - cbn [addTracks]. unfold PcM.bind, PcM.call.
    destruct (tr_ok tr c _); [|done].
    intros H. apply IH in H. rewrite H. unfold with_senders. simpl.
    by rewrite <- app_assoc.
Qed.

(** Making an offer or an answer changes descriptions only. *)
Lemma makeOffer_fields c :
  senders (makeOffer tr c).1 = senders c ∧
  iceCandidates (makeOffer tr c).1 = iceCandidates c ∧
  remoteDescription (makeOffer tr c).1 = remoteDescription c.
Proof.
  unfold makeOffer, PcM.bind, PcM.get, PcM.ret, PcM.call.
  repeat (case_match; unpack); done.
Qed.

Lemma makeAnswer_fields o c :
  senders (makeAnswer tr o c).1 = senders c ∧
  iceCandidates (makeAnswer tr o c).1 = iceCandidates c.
Proof.
  unfold makeAnswer, PcM.bind, PcM.get, PcM.ret, PcM.call.
  repeat (case_match; unpack); done.
Qed.

Lemma makeOffer_done c c' o :
  makeOffer tr c = (c', inl o) →
  o = tr_offer tr c ∧ c' = apply_op (SetLocalDescription o) c.
Proof.
  unfold makeOffer, PcM.bind, PcM.get, PcM.ret, PcM.call.
  repeat (case_match; unpack); try done.
  intros [= <- <-]. done.
Qed.

Lemma makeAnswer_done offer c c' a :
  makeAnswer tr offer c = (c', inl a) →
  a = tr_answer tr (apply_op (SetRemoteDescription offer) c) ∧
  c' = apply_op (SetLocalDescription a)
         (apply_op (SetRemoteDescription offer) c).
Proof.
  unfold makeAnswer, PcM.bind, PcM.get, PcM.ret, PcM.call.
  repeat (case_match; unpack); try done.
  intros [= <- <-]. done.
Qed.

(** The calls of the join and offer branches keep the connection and
    only add senders, after those it has. *)
Lemma join_calls_grow sid ts c :
  let c' := ((addTracks tr sid ts ;;; makeOffer tr) c).1 in
  pc_serial c' = pc_serial c ∧ pc_closed c' = pc_closed c ∧
  senders c `prefix_of` senders c' ∧ iceCandidates c' = iceCandidates c.
Proof.
  unfold PcM.bind.
  destruct (addTracks_prefix sid ts c) as [k Hk].
  pose proof (addTracks_keeps tr sid ts c) as [Hs Hc].
  destruct (addTracks tr sid ts c) as [c1 [[]|e1]]; simpl in *.
  - pose proof (makeOffer_keeps tr c1) as [Hs' Hc'].
    pose proof (makeOffer_fields c1) as (Hf1 & Hf2 & _).
    rewrite Hs', Hc', Hf1, Hf2, Hk. simpl.
    repeat split; try done. by apply prefix_app_r.
  - rewrite Hk. simpl. repeat split; try done. by apply prefix_app_r.
Qed.

Lemma offer_calls_grow sid ts o c :
  let c' := ((addTracks tr sid ts ;;; makeAnswer tr o) c).1 in
  pc_serial c' = pc_serial c ∧ pc_closed c' = pc_closed c ∧
  senders c `prefix_of` senders c' ∧ iceCandidates c' = iceCandidates c.
Proof.
  unfold PcM.bind.
  destruct (addTracks_prefix sid ts c) as [k Hk].
  pose proof (addTracks_keeps tr sid ts c) as [Hs Hc].
  destruct (addTracks tr sid ts c) as [c1 [[]|e1]]; simpl in *.
  - pose proof (makeAnswer_keeps tr o c1) as [Hs' Hc'].
    pose proof (makeAnswer_fields o c1) as (Hf1 & Hf2).
    rewrite Hs', Hc', Hf1, Hf2, Hk. simpl.
    repeat split; try done. by apply prefix_app_r.
  - rewrite Hk. simpl. repeat split; try done. by apply prefix_app_r.
Qed.

(** One accepted call keeps the connection and only adds to it. *)
Lemma apply_op_grows op c :
  pc_serial (apply_op op c) = pc_serial c ∧
  pc_closed (apply_op op c) = pc_closed c ∧
  senders c `prefix_of` senders (apply_op op c) ∧
  iceCandidates c `prefix_of` iceCandidates (apply_op op c).
Proof.
  destruct op; simpl; repeat split; try done;
    by apply prefix_app_r.
Qed.

End CallResults.

(** ** How one message changes the table *)

Section TableSteps.

Context (tr : transport) (uid : option Z).

Lemma grows_refl c : grows c c.
Proof. by repeat split. Qed.

Lemma sender_usable data p :
  from_user data = Some p →
  negb (truthy (Some p)) || bool_decide (Some p = uid) = false →
  sender uid data = Some p.
Proof. unfold sender. by intros -> ->. Qed.

Lemma ensureLocalStream_table media s :
  pcRef (ensureLocalStream media s).1 = pcRef s ∧
  peers (ensureLocalStream media s).1 = peers s ∧
  pcCreated (ensureLocalStream media s).1 = pcCreated s.
Proof.
  unfold ensureLocalStream.
  destruct (localStream s), media; done.
Qed.

(** After [createPeerConnection] and the calls of a branch, the table
    has changed in the second or third way. *)
Lemma settle_table data p reply s0 s (c' : pc) r :
  sender uid data = Some p →
  pcRef s = (createPeerConnection p s0).2.(pcRef) →
  peers s = peers s0 →
  pcCreated s = pcCreated (createPeerConnection p s0).2 →
  grows (createPeerConnection p s0).1 r.1 →
  table_step uid data s0 (settle p reply s r).1.1.
Proof.
  intros Hs Hpc Hpeers Hn Hg.
  assert (Hst : pcRef (settle p reply s r).1.1 = <[p := r.1]> (pcRef s) ∧
                peers (settle p reply s r).1.1 = peers s ∧
                pcCreated (settle p reply s r).1.1 = pcCreated s).
  { unfold settle. by destruct r as [c1 [d|e]]. }
  destruct Hst as (H1 & H2 & H3). unfold table_step.
  rewrite H1, H2, H3, Hpc, Hpeers, Hn. clear H1 H2 H3 Hpc Hpeers Hn.
  unfold createPeerConnection in *.
  destruct (pcRef s0 !! p) as [c|] eqn:Hc0; simpl in *.
  - right. left. exists p, c, r.1. done.
  - right. right. left. exists p, r.1. rewrite insert_insert_eq. done.
Qed.

Lemma callOn_table data p op s :
  sender uid data = Some p →
  table_step uid data s (callOn tr p op s).1.1.
Proof.
  intros Hs. unfold callOn.
  destruct (pcRef s !! p) as [c|] eqn:Hc; [|by left].
  destruct (tr_ok tr c op); [|by left].
  right. left. exists p, c, (apply_op op c). simpl.
  repeat split; try done; apply (apply_op_grows op c).
Qed.

Lemma handleSignal_table data media s :
  table_step uid data s (handleSignal tr uid data media s).1.1.
Proof.
  unfold handleSignal.
  destruct (from_user data) as [p|] eqn:Hfrom; [|by left].
  destruct (negb (truthy (Some p)) || bool_decide (Some p = uid)) eqn:Hg;
    [by left|].
  pose proof (sender_usable data p Hfrom Hg) as Hs.
  destruct (type data) eqn:Hty.
  - pose proof (ensureLocalStream_table media s) as (H1 & H2 & H3).
    destruct (ensureLocalStream media s) as [s1 [st|]]; simpl in *;
      [|by left].
    assert (Hcp : pcRef (createPeerConnection p s1).2
                  = pcRef (createPeerConnection p s).2 ∧
                  peers (createPeerConnection p s1).2 = peers s ∧
                  pcCreated (createPeerConnection p s1).2
                  = pcCreated (createPeerConnection p s).2 ∧
                  (createPeerConnection p s1).1
                  = (createPeerConnection p s).1).
    { unfold createPeerConnection. rewrite H1, H3.
      destruct (pcRef s !! p); simpl; rewrite ?H1; done. }
    destruct Hcp as (Hc1 & Hc2 & Hc3 & Hc4).
    destruct (createPeerConnection p s1) as [c s2]; simpl in *.
    apply (settle_table data p); try done. rewrite <- Hc4.
    destruct (join_calls_grow tr (stream_id st) (getTracks st) c)
      as (? & ? & ? & Hi).
    repeat split; try done. by rewrite Hi.
  - destruct (bool_decide (to_user data = uid)); [|by left].
    pose proof (ensureLocalStream_table media (createPeerConnection p s).2)
      as (H1 & H2 & H3).
    assert (Hp : peers (createPeerConnection p s).2 = peers s).
    { unfold createPeerConnection. by destruct (pcRef s !! p). }
    destruct (createPeerConnection p s) as [c s1] eqn:Hcp; simpl in *.
    destruct (ensureLocalStream media s1) as [s2 [st|]]; simpl in *.
    + apply (settle_table data p); rewrite ?Hcp; simpl; try done;
        [congruence|].
      destruct (offer_calls_grow tr (stream_id st) (getTracks st)
                  (offer data) c) as (? & ? & ? & Hi).
      repeat split; try done. by rewrite Hi.
    + unfold createPeerConnection in Hcp.
      destruct (pcRef s !! p) as [c0|] eqn:Hc0.
      * injection Hcp as <- <-. left. done.
      * injection Hcp as <- <-. simpl in *. right. right. left.
        exists p, (new_pc (pcCreated s)).
        repeat split; try done; congruence.
  - destruct (bool_decide (to_user data = uid)); [|by left].
    by apply callOn_table.
  - destruct (candidate data); [|by left].
    destruct (bool_decide (to_user data = uid)); [|by left].
    by apply callOn_table.
  - destruct (user_id data) as [pid|] eqn:Hpid; [|by left].
    right. right. right. exists pid. done.
  - by left.
Qed.

End TableSteps.

(** ** One participant at a time *)

(** X3: a message touches only the table entries of its sender, or of
    the participant whose departure it announces: for every other
    participant the connection and the remote stream shown are what
    they were. *)
Theorem handleSignal_isolated tr uid data media s q :
  sender uid data ≠ Some q →
  ¬ (type data = TUserLeft ∧ user_id data = Some q) →
  pcRef (handleSignal tr uid data media s).1.1 !! q = pcRef s !! q ∧
  peers (handleSignal tr uid data media s).1.1 !! q = peers s !! q.
Proof.
  intros Hs Hl.
  destruct (handleSignal_table tr uid data media s)
    as [(-> & -> & _)|[(p & c & c' & Hp & _ & _ & -> & -> & _)
       |[(p & c' & Hp & _ & _ & -> & -> & _)
        |(pid & Hty & Hpid & -> & -> & _)]]].
  - done.
  - rewrite lookup_insert_ne; [done|congruence].
  - rewrite lookup_insert_ne; [done|congruence].
  - assert (pid ≠ q) by (intros ->; by apply Hl).
    by rewrite !lookup_delete_ne.
Qed.

(** A candidate from 2 leaves the connection of 3 alone. *)
Lemma handleSignal_isolated_witness :
  pcRef (handleSignal permissive me (sigIce 2 1 5) None in_call).1.1 !! 3%Z
  = pcRef in_call !! 3%Z ∧
  peers (handleSignal permissive me (sigIce 2 1 5) None in_call).1.1 !! 3%Z
  = peers in_call !! 3%Z.
Proof.
  apply (handleSignal_isolated permissive me (sigIce 2 1 5) None in_call
           3%Z).
  - vm_compute. congruence.
  - intros [H _]. vm_compute in H. congruence.
Defined.

(** X4: a connection of the table is never replaced, closed or stripped
    by a message: afterwards the participant has the same connection
    object, no more closed, with the senders and candidates it had and
    possibly more after them; it leaves the table only through a
    departure notice that names the participant. *)
Theorem handleSignal_keeps_connection tr uid data media s q c :
  pcRef s !! q = Some c →
  (∃ c', pcRef (handleSignal tr uid data media s).1.1 !! q = Some c' ∧
         grows c c') ∨
  (pcRef (handleSignal tr uid data media s).1.1 !! q = None ∧
   type data = TUserLeft ∧ user_id data = Some q).
Proof.
  intros Hq.
  destruct (handleSignal_table tr uid data media s)
    as [(-> & _)|[(p & c0 & c' & Hp & Hc0 & Hg & -> & _)
       |[(p & c' & Hp & Hnone & _ & -> & _)
        |(pid & Hty & Hpid & -> & _)]]].
  - left. exists c. split; [done|apply grows_refl].
  - left. destruct (decide (p = q)) as [->|Hne].
    + exists c'. rewrite lookup_insert_eq. split; [done|congruence].
    + exists c. rewrite lookup_insert_ne by done.
      split; [done|apply grows_refl].
  - left. exists c. rewrite lookup_insert_ne by congruence.
    split; [done|apply grows_refl].
  - destruct (decide (pid = q)) as [->|Hne].
    + right. by rewrite lookup_delete_eq.
    + left. exists c. rewrite lookup_delete_ne by done.
      split; [done|apply grows_refl].
Qed.

(** A second join from 2 keeps the connection of 2. *)
Lemma handleSignal_keeps_connection_witness :
  (∃ c', pcRef (handleSignal permissive me (sigJoin 2) None offered).1.1
           !! 2%Z = Some c' ∧
         grows (Pc 0 [(1, 1); (2, 1)] (Some 2) None [] false) c') ∨
  (pcRef (handleSignal permissive me (sigJoin 2) None offered).1.1 !! 2%Z
   = None ∧
   type (sigJoin 2) = TUserLeft ∧ user_id (sigJoin 2) = Some 2%Z).
Proof.
  apply (handleSignal_keeps_connection permissive me (sigJoin 2) None
           offered 2%Z).
  vm_compute. reflexivity.
Defined.

(** ** Invariants of the connection table *)

Section TableInvariants.

Context (tr : transport) (uid : option Z).

Lemma table_step_fresh data s s' :
  table_step uid data s s' → fresh_serials s → fresh_serials s'.
Proof.
  intros Hstep [Hlt Hinj].
  destruct Hstep
    as [(Hpc & _ & Hn)|[(p & c & c' & _ & Hc & Hg & Hpc & _ & Hn)
       |[(p & c' & _ & Hnone & Hg & Hpc & _ & Hn)
        |(pid & _ & _ & Hpc & _ & Hn)]]];
    unfold fresh_serials; rewrite Hpc, Hn.
  - done.
  - destruct Hg as (Hser & _).
    assert (Hold : ∀ q d, <[p:=c']> (pcRef s) !! q = Some d →
                     ∃ d0, pcRef s !! q = Some d0 ∧
                           pc_serial d = pc_serial d0).
    { intros q d. destruct (decide (p = q)) as [->|Hne].
      - rewrite lookup_insert_eq. intros [= <-]. eauto.
      - rewrite lookup_insert_ne by done. eauto. }
    split.
    + intros q d Hq. apply Hold in Hq as (d0 & Hd0 & ->). eauto.
    + intros q1 q2 d1 d2 H1 H2 Heq.
      apply Hold in H1 as (e1 & He1 & Hs1).
      apply Hold in H2 as (e2 & He2 & Hs2).
      apply (Hinj q1 q2 e1 e2); congruence.
  - destruct Hg as (Hser & _). simpl in Hser.
    split.
    + intros q d. destruct (decide (p = q)) as [->|Hne].
      * rewrite lookup_insert_eq. intros [= <-]. lia.
      * rewrite lookup_insert_ne by done. intros Hq.
        apply Hlt in Hq. lia.
    + intros q1 q2 d1 d2.
      destruct (decide (q1 = p)) as [->|Hne1];
        destruct (decide (q2 = p)) as [->|Hne2];
        rewrite ?lookup_insert_eq, ?lookup_insert_ne by done; try done.
      * intros [= <-] H2 Heq. apply Hlt in H2. lia.
      * intros H1 [= <-] Heq. apply Hlt in H1. lia.
      * apply Hinj.
  - split.
    + intros q d Hq. apply lookup_delete_Some in Hq as [_ Hq]. eauto.
    + intros q1 q2 d1 d2 H1 H2.
      apply lookup_delete_Some in H1 as [_ H1].
      apply lookup_delete_Some in H2 as [_ H2]. eauto.
Qed.

Lemma table_step_open data s s' :
  table_step uid data s s' →
  map_Forall (fun _ c => pc_closed c = false) (pcRef s) →
  map_Forall (fun _ c => pc_closed c = false) (pcRef s').
Proof.
  intros Hstep Hopen.
  destruct Hstep
    as [(-> & _)|[(p & c & c' & _ & Hc & Hg & -> & _)
       |[(p & c' & _ & Hnone & Hg & -> & _)
        |(pid & _ & _ & -> & _)]]].
  - done.
  - apply map_Forall_insert_2; [|done].
    destruct Hg as (_ & -> & _). by apply (Hopen p).
  - apply map_Forall_insert_2; [|done]. by destruct Hg as (_ & -> & _).
  - by apply map_Forall_delete.
Qed.

(** The handlers other than [handleSignal] and [hangUp] leave the table
    and the count of constructed connections alone. *)
Lemma handle_table ev s :
  match ev with
  | EvSignal data _ => table_step uid data s (handle tr uid ev s).1
  | EvHangUp =>
      pcRef (handle tr uid ev s).1 = close <$> pcRef s ∧
      pcCreated (handle tr uid ev s).1 = pcCreated s
  | _ =>
      pcRef (handle tr uid ev s).1 = pcRef s ∧
      pcCreated (handle tr uid ev s).1 = pcCreated s
  end.
Proof.
  destruct ev as [media|b|data media|p r|p c| | |d| |]; simpl; try done.
  - unfold start. by destruct media.
  - pose proof (handleSignal_table tr uid data media s) as H.
    by destruct (handleSignal tr uid data media s) as [[s' out] [|e]].
  - unfold startScreenShare. by destruct d.
Qed.

Lemma joinEffect_table s :
  pcRef (joinEffect s).1 = pcRef s ∧
  pcCreated (joinEffect s).1 = pcCreated s.
Proof. unfold joinEffect. by case_match. Qed.

Lemma step_fresh ev s :
  fresh_serials s → fresh_serials (step tr uid ev s).1.
Proof.
  intros Hf. unfold step.
  pose proof (handle_table ev s) as Hh.
  destruct (handle tr uid ev s) as [s1 out1]; simpl in *.
  pose proof (joinEffect_table s1) as [Hj1 Hj2].
  destruct (joinEffect s1) as [s2 out2]; simpl in *.
  assert (Hf1 : fresh_serials s1).
  { destruct ev; try (destruct Hh as [H1 H2]; unfold fresh_serials;
                      by rewrite H1, H2).
    - by apply (table_step_fresh data s).
    - destruct Hh as [H1 H2]. destruct Hf as [Hlt Hinj].
      unfold fresh_serials. rewrite H1, H2.
      assert (Hcl : ∀ q d, (close <$> pcRef s) !! q = Some d →
                ∃ d0, pcRef s !! q = Some d0 ∧
                      pc_serial d = pc_serial d0).
      { intros q d. rewrite lookup_fmap.
        destruct (pcRef s !! q) as [d0|]; [|done].
        intros [= <-]. eauto. }
      split.
      + intros q d Hq. apply Hcl in Hq as (d0 & Hd0 & ->). eauto.
      + intros q1 q2 d1 d2 Hq1 Hq2 Heq.
        apply Hcl in Hq1 as (e1 & He1 & Hs1).
        apply Hcl in Hq2 as (e2 & He2 & Hs2).
        apply (Hinj q1 q2 e1 e2); congruence. }
  unfold fresh_serials. by rewrite Hj1, Hj2.
Qed.

Lemma step_open ev s :
  ev ≠ EvHangUp →
  map_Forall (fun _ c => pc_closed c = false) (pcRef s) →
  map_Forall (fun _ c => pc_closed c = false) (pcRef (step tr uid ev s).1).
Proof.
  intros Hev Hopen. unfold step.
  pose proof (handle_table ev s) as Hh.
  destruct (handle tr uid ev s) as [s1 out1]; simpl in *.
  pose proof (joinEffect_table s1) as [Hj1 _].
  destruct (joinEffect s1) as [s2 out2]; simpl in *. rewrite Hj1.
  destruct ev; try (destruct Hh as [-> _]; done).
  by apply (table_step_open data s).
Qed.

(** X5: in every state the component reaches from mount, each connection
    of the table is one the component constructed (its rank is below the
    count of constructions) and no two participants share a connection
    object. *)
Theorem connections_are_distinct evs :
  fresh_serials (run tr uid evs init).1.
Proof.
  assert (Hgen : ∀ s, fresh_serials s → fresh_serials (run tr uid evs s).1).
  { induction evs as [|ev evs IH]; intros s Hf; [done|]. simpl.
    pose proof (step_fresh ev s Hf) as Hs.
    destruct (step tr uid ev s) as [s1 out1]; simpl in *.
    specialize (IH s1 Hs).
    by destruct (run tr uid evs s1) as [s2 out2]. }
  apply Hgen. split; simpl; intros *; by rewrite lookup_empty.
Qed.

(** X6: as long as the user has not hung up, the table holds open
    connections only: a connection is closed only by [hangUp], or by a
    departure notice, which removes it from the table as well. *)
Theorem connections_are_open evs :
  EvHangUp ∉ evs →
  map_Forall (fun _ c => pc_closed c = false)
             (pcRef (run tr uid evs init).1).
Proof.
  assert (Hgen : ∀ s, EvHangUp ∉ evs →
            map_Forall (fun _ c => pc_closed c = false) (pcRef s) →
            map_Forall (fun _ c => pc_closed c = false)
                       (pcRef (run tr uid evs s).1)).
  { induction evs as [|ev evs IH]; intros s Hno Hopen; [done|]. simpl.
    apply not_elem_of_cons in Hno as [Hev Hno].
    pose proof (step_open ev s (not_eq_sym Hev) Hopen) as Hs.
    destruct (step tr uid ev s) as [s1 out1]; simpl in *.
    specialize (IH s1 Hno Hs).
    by destruct (run tr uid evs s1) as [s2 out2]. }
  intros Hno. apply Hgen; [done|]. apply map_Forall_empty.
Qed.

End TableInvariants.

(** The sample call: two open connections. *)
Lemma connections_are_open_witness :
  map_Forall (fun _ c => pc_closed c = false)
    (pcRef (run permissive me
              [EvStart (Some cam); EvConnected true;
               EvSignal (sigJoin 2) None; EvSignal (sigOffer 3 1 7) None]
              init).1).
Proof.
  apply (connections_are_open permissive me
           [EvStart (Some cam); EvConnected true;
            EvSignal (sigJoin 2) None; EvSignal (sigOffer 3 1 7) None]).
  intros H. repeat (apply elem_of_cons in H as [H|H]; [discriminate H|]).
  inversion H.
Defined.

(** ** What a message is answered with *)

Section Replies.

Context (tr : transport) (uid : option Z).

Lemma bind_done {A B} (a : PcM.t A) (b : PcM.t B) c c' (v : B) :
  PcM.bind a (fun _ => b) c = (c', inl v) →
  ∃ c1 u, a c = (c1, inl u) ∧ b c1 = (c', inl v).
Proof.
  unfold PcM.bind. destruct (a c) as [c1 [u|e]]; [by eauto|done].
Qed.

Lemma ensureLocalStream_stream media s s1 st :
  ensureLocalStream media s = (s1, Some st) → localStream s1 = Some st.
Proof.
  unfold ensureLocalStream.
  destruct (localStream s) as [st0|] eqn:Hl.
  - by intros [= <- <-].
  - destruct media; [|done]. by intros [= <- <-].
Qed.

Lemma createPeerConnection_stream p s :
  localStream (createPeerConnection p s).2 = localStream s.
Proof. unfold createPeerConnection. by destruct (pcRef s !! p). Qed.

Lemma ensureLocalStream_lookup media s p :
  pcRef (ensureLocalStream media s).1 !! p = pcRef s !! p.
Proof.
  unfold ensureLocalStream. by destruct (localStream s), media.
Qed.

(** What the handler emits: nothing, or one reply to the sender, whose
    connection then carries every local track and the description
    sent. *)
Lemma handleSignal_emits data media s :
  let r := handleSignal tr uid data media s in
  r.1.2 = [] ∨
  ∃ p st c' d,
    sender uid data = Some p ∧ r.2 = Done ∧
    localStream r.1.1 = Some st ∧ pcRef r.1.1 !! p = Some c' ∧
    sender_pairs st `suffix_of` senders c' ∧
    localDescription c' = Some d ∧
    ((type data = TJoin ∧ r.1.2 = [Send (MOffer d p)]) ∨
     (type data = TOffer ∧ to_user data = uid ∧
      remoteDescription c' = Some (offer data) ∧
      r.1.2 = [Send (MAnswer d p)])).
Proof.
  unfold handleSignal.
  destruct (from_user data) as [p|] eqn:Hfrom; [|by left].
  destruct (negb (truthy (Some p)) || bool_decide (Some p = uid)) eqn:Hg;
    [by left|].
  pose proof (sender_usable uid data p Hfrom Hg) as Hs.
  destruct (type data) eqn:Hty.
  - destruct (ensureLocalStream media s) as [s1 [st|]] eqn:He; [|by left].
    apply ensureLocalStream_stream in He.
    pose proof (createPeerConnection_stream p s1) as Hcs.
    destruct (createPeerConnection p s1) as [c s2]; simpl in Hcs.
    unfold settle.
    destruct ((addTracks tr (stream_id st) (getTracks st);;; makeOffer tr) c)
      as [c' [o|e]] eqn:Hcalls; simpl; [|by left].
    right. exists p, st, c', o.
    apply bind_done in Hcalls as (c1 & u & Ha & Hm).
    apply addTracks_done in Ha. apply makeOffer_done in Hm as [Ho ->].
    rewrite lookup_insert_eq, Ha. simpl.
    repeat split; try done; [congruence| |by left].
    by apply suffix_app_r.
  - destruct (bool_decide_reflect (to_user data = uid)) as [Hto|];
      [|by left].
    pose proof (createPeerConnection_stream p s) as Hcs.
    destruct (createPeerConnection p s) as [c s1]; simpl in Hcs.
    destruct (ensureLocalStream media s1) as [s2 [st|]] eqn:He; [|by left].
    apply ensureLocalStream_stream in He.
    unfold settle.
    destruct ((addTracks tr (stream_id st) (getTracks st);;;
               makeAnswer tr (offer data)) c)
      as [c' [a|e]] eqn:Hcalls; simpl; [|by left].
    right. exists p, st, c', a.
    apply bind_done in Hcalls as (c1 & u & Ha & Hm).
    apply addTracks_done in Ha. apply makeAnswer_done in Hm as [Ho ->].
    rewrite lookup_insert_eq, Ha. simpl.
    repeat split; try done. { by apply suffix_app_r. }
    right. done.
  - left. destruct (bool_decide (to_user data = uid)); [|done].
    unfold callOn. destruct (pcRef s !! p) as [c|]; [|done].
    by destruct (tr_ok tr c _).
  - left. destruct (candidate data); [|done].
    destruct (bool_decide (to_user data = uid)); [|done].
    unfold callOn. destruct (pcRef s !! p) as [c|]; [|done].
    by destruct (tr_ok tr c _).
  - left. by destruct (user_id data).
  - by left.
Qed.

(** X7: the handler emits at most one thing, and only ever a reply to
    the usable sender of the message it handles: an offer in reply to a
    join, an answer in reply to an offer addressed to the local
    participant.  It never writes to a third participant or to itself,
    never replies to an answer, a candidate or a departure, and a
    rejected handler sends nothing. *)
Theorem handleSignal_replies_to_sender data media s :
  let r := handleSignal tr uid data media s in
  (r.1.2 = [] ∨
   ∃ p d, from_peer uid data p ∧ r.2 = Done ∧
          ((type data = TJoin ∧ r.1.2 = [Send (MOffer d p)]) ∨
           (type data = TOffer ∧ to_user data = uid ∧
            r.1.2 = [Send (MAnswer d p)]))) ∧
  (∀ e, r.2 = Rejected e → r.1.2 = []).
Proof.
  pose proof (handleSignal_emits data media s) as H. simpl in *.
  destruct H as [H|(p & st & c' & d & Hs & Hd & _ & _ & _ & _ & Hm)].
  - split; [by left|done].
  - split; [|intros e He; congruence].
    right. exists p, d. apply sender_from_peer in Hs.
    split; [done|]. split; [done|].
    destruct Hm as [[? ?]|(? & ? & _ & ?)]; [by left|by right].
Qed.

(** X8: when the handler sends an offer or an answer, the connection of
    the recipient carries, as its last senders, every track of the local
    stream, and its local description is the description sent; for an
    answer, its remote description is the offer answered.  Nothing is
    sent before the tracks are attached. *)
Theorem reply_describes_connection data media s m :
  Send m ∈ (handleSignal tr uid data media s).1.2 →
  ∃ p st c' d,
    localStream (handleSignal tr uid data media s).1.1 = Some st ∧
    pcRef (handleSignal tr uid data media s).1.1 !! p = Some c' ∧
    sender_pairs st `suffix_of` senders c' ∧
    localDescription c' = Some d ∧
    (m = MOffer d p ∨
     (m = MAnswer d p ∧ remoteDescription c' = Some (offer data))).
Proof.
  intros Hin.
  pose proof (handleSignal_emits data media s) as H. simpl in *.
  destruct H as [H|(p & st & c' & d & _ & _ & Hl & Hc & Hsuf & Hd & Hm)].
  - rewrite H in Hin. inversion Hin.
  - exists p, st, c', d. repeat split; try done.
    destruct Hm as [[_ Hm]|(_ & _ & Hr & Hm)]; rewrite Hm in Hin;
      apply list_elem_of_singleton in Hin; injection Hin as ->; eauto.
Qed.

End Replies.

(** The offer sent to participant 2 after its join. *)
Lemma reply_describes_connection_witness :
  ∃ p st c' d,
    localStream
      (handleSignal permissive me (sigJoin 2) (Some cam) init).1.1
    = Some st ∧
    pcRef (handleSignal permissive me (sigJoin 2) (Some cam) init).1.1
      !! p = Some c' ∧
    sender_pairs st `suffix_of` senders c' ∧
    localDescription c' = Some d ∧
    (MOffer 2 2 = MOffer d p ∨
     (MOffer 2 2 = MAnswer d p ∧
      remoteDescription c' = Some (offer (sigJoin 2)))).
Proof.
  apply (reply_describes_connection permissive me (sigJoin 2) (Some cam)
           init (MOffer 2 2)).
  vm_compute. apply list_elem_of_here.
Defined.

(** ** Local media in the signaling handler *)

Section LazyMedia.

Context (tr : transport) (uid : option Z).

Lemma ensureLocalStream_lazy media s :
  let s1 := (ensureLocalStream media s).1 in
  (localStream s1 = localStream s ∧ gumCalls s1 = gumCalls s ∧
   is_Some (localStream s)) ∨
  (localStream s = None ∧ localStream s1 = media ∧
   gumCalls s1 = S (gumCalls s)).
Proof.
  unfold ensureLocalStream.
  destruct (localStream s) as [st|] eqn:Hl; simpl.
  - left. rewrite Hl. eauto.
  - right. by destruct media.
Qed.

Lemma createPeerConnection_media p s :
  localStream (createPeerConnection p s).2 = localStream s ∧
  gumCalls (createPeerConnection p s).2 = gumCalls s.
Proof. unfold createPeerConnection. by destruct (pcRef s !! p). Qed.

Lemma settle_media p reply s r :
  localStream (settle p reply s r).1.1 = localStream s ∧
  gumCalls (settle p reply s r).1.1 = gumCalls s.
Proof. unfold settle. by destruct r as [c [d|e]]. Qed.

Lemma callOn_media p op s :
  localStream (callOn tr p op s).1.1 = localStream s ∧
  gumCalls (callOn tr p op s).1.1 = gumCalls s.
Proof.
  unfold callOn. destruct (pcRef s !! p) as [c|]; [|done].
  by destruct (tr_ok tr c op).
Qed.

(** X9: the signaling handler asks for the capture device only when no
    local stream is held, at most once per message, and only for a join
    or an offer addressed to the local participant; with a stream held
    it keeps that stream and asks for nothing.  A stream it obtains
    becomes the local stream as delivered; a refusal leaves it
    absent. *)
Theorem handleSignal_media_is_lazy data media s :
  let s' := (handleSignal tr uid data media s).1.1 in
  (is_Some (localStream s) →
   localStream s' = localStream s ∧ gumCalls s' = gumCalls s) ∧
  ((localStream s' = localStream s ∧ gumCalls s' = gumCalls s) ∨
   (localStream s = None ∧ localStream s' = media ∧
    gumCalls s' = S (gumCalls s) ∧
    (type data = TJoin ∨ (type data = TOffer ∧ to_user data = uid)))).
Proof.
  assert (Hmain :
    let s' := (handleSignal tr uid data media s).1.1 in
    (localStream s' = localStream s ∧ gumCalls s' = gumCalls s) ∨
    (localStream s = None ∧ localStream s' = media ∧
     gumCalls s' = S (gumCalls s) ∧
     (type data = TJoin ∨ (type data = TOffer ∧ to_user data = uid)))).
  { unfold handleSignal.
    destruct (from_user data) as [p|]; [|by left].
    destruct (negb (truthy (Some p)) || bool_decide (Some p = uid));
      [by left|].
    destruct (type data) eqn:Hty.
    - pose proof (ensureLocalStream_lazy media s) as He.
      destruct (ensureLocalStream media s) as [s1 [st|]]; simpl in *.
      + pose proof (createPeerConnection_media p s1) as [Hc1 Hc2].
        destruct (createPeerConnection p s1) as [c s2]; simpl in *.
        match goal with |- context [settle ?a ?b ?c ?d] =>
          destruct (settle_media a b c d) as [-> ->] end.
        rewrite Hc1, Hc2.
        destruct He as [(? & ? & _)|(? & ? & ?)]; [by left|].
        right. repeat split; try done; eauto.
      + destruct He as [(? & ? & _)|(? & ? & ?)]; [by left|].
        right. repeat split; try done; eauto.
    - destruct (bool_decide_reflect (to_user data = uid)) as [Hto|];
        [|by left].
      pose proof (createPeerConnection_media p s) as [Hc1 Hc2].
      destruct (createPeerConnection p s) as [c s1]; simpl in *.
      pose proof (ensureLocalStream_lazy media s1) as He.
      rewrite Hc1, Hc2 in He.
      destruct (ensureLocalStream media s1) as [s2 [st|]]; simpl in *.
      + match goal with |- context [settle ?a ?b ?c ?d] =>
          destruct (settle_media a b c d) as [-> ->] end.
        destruct He as [(? & ? & _)|(? & ? & ?)]; [by left|].
        right. repeat split; try done; eauto.
      + destruct He as [(? & ? & _)|(? & ? & ?)]; [by left|].
        right. repeat split; try done; eauto.
    - left. destruct (bool_decide (to_user data = uid)); [|done].
      apply callOn_media.
    - left. destruct (candidate data); [|done].
      destruct (bool_decide (to_user data = uid)); [|done].
      apply callOn_media.
    - left. by destruct (user_id data).
    - by left. }
  simpl in *. split; [|done].
  intros [st Hst].
  destruct Hmain as [H|(Hn & _)]; [done|congruence].
Qed.

(** X10: when the capture device is refused to a message from a
    participant without connection, the handler is rejected with a media
    acquisition failure and sends nothing; for a join no connection is
    created, whereas for an offer the connection has already been
    created and stays in the table, empty: no track, no description. *)
Theorem media_refused_to_handler data s p :
  localStream s = None → from_peer uid data p → pcRef s !! p = None →
  (type data = TJoin →
   handleSignal tr uid data None s
   = (set_gumCalls (S (gumCalls s)) s, [],
      Rejected MediaAcquisitionError)) ∧
  (type data = TOffer → to_user data = uid →
   handleSignal tr uid data None s
   = (set_gumCalls (S (gumCalls s))
        (set_pcCreated (S (pcCreated s))
           (set_pcRef (<[p := new_pc (pcCreated s)]> (pcRef s)) s)),
      [], Rejected MediaAcquisitionError)).
Proof.
  intros Hl Hfrom Hpc.
  unfold handleSignal. destruct Hfrom as (Hf & Hp & Hu). rewrite Hf.
  rewrite (from_peer_test uid data p) by done.
  split.
  - intros ->. unfold ensureLocalStream. by rewrite Hl.
  - intros -> Hto. rewrite bool_decide_eq_true_2 by done.
    unfold createPeerConnection, ensureLocalStream. rewrite Hpc. simpl.
    by rewrite Hl.
Qed.

End LazyMedia.

(** A join and an offer from participant 2 at mount, the device
    refused. *)
Lemma media_refused_to_handler_witness :
  (type (sigOffer 2 1 7) = TJoin →
   handleSignal permissive me (sigOffer 2 1 7) None init
   = (set_gumCalls (S (gumCalls init)) init, [],
      Rejected MediaAcquisitionError)) ∧
  (type (sigOffer 2 1 7) = TOffer → to_user (sigOffer 2 1 7) = me →
   handleSignal permissive me (sigOffer 2 1 7) None init
   = (set_gumCalls (S (gumCalls init))
        (set_pcCreated (S (pcCreated init))
           (set_pcRef (<[2%Z := new_pc (pcCreated init)]> (pcRef init))
              init)),
      [], Rejected MediaAcquisitionError)).
Proof.
  apply (media_refused_to_handler permissive me (sigOffer 2 1 7) init 2%Z).
  - reflexivity.
  - unfold from_peer, me. simpl. repeat split; [lia | congruence].
  - reflexivity.
Defined.

(** ** Departures *)

(** X11: a departure notice with a usable sender removes the participant
    it names from the table and from the remote streams shown, whoever
    sent it, changes nothing else and emits nothing; received again, it
    changes nothing at all. *)
Theorem departure_removes tr uid data media s pid :
  removes uid pid data →
  let s' := set_peers (delete pid (peers s))
              (set_pcRef (delete pid (pcRef s)) s) in
  handleSignal tr uid data media s = (s', [], Done) ∧
  pcRef s' !! pid = None ∧ peers s' !! pid = None ∧
  (∀ q, q ≠ pid →
        pcRef s' !! q = pcRef s !! q ∧ peers s' !! q = peers s !! q) ∧
  handleSignal tr uid data media s' = (s', [], Done).
Proof.
  intros (Hty & Hpid & q & Hq) s'.
  assert (Hh : ∀ s0, handleSignal tr uid data media s0
                 = (set_peers (delete pid (peers s0))
                      (set_pcRef (delete pid (pcRef s0)) s0), [], Done)).
  { intros s0. unfold handleSignal. destruct Hq as (Hf & Hrest).
    rewrite Hf, (from_peer_test uid data q) by done.
    by rewrite Hty, Hpid. }
  split; [apply Hh|]. subst s'. simpl.
  rewrite !lookup_delete_eq. split; [done|]. split; [done|]. split.
  - intros q' Hne. by rewrite !lookup_delete_ne.
  - rewrite Hh. unfold set_peers, set_pcRef. simpl.
    by rewrite !delete_delete_eq.
Qed.

(** Participant 3 announces that 2 has left. *)
Lemma departure_removes_witness :
  let data := Signal TUserLeft (Some 3%Z) None 0 0 None (Some 2%Z) in
  let s' := set_peers (delete 2%Z (peers in_call))
              (set_pcRef (delete 2%Z (pcRef in_call)) in_call) in
  handleSignal permissive me data None in_call = (s', [], Done) ∧
  pcRef s' !! 2%Z = None ∧ peers s' !! 2%Z = None ∧
  (∀ q, q ≠ 2%Z →
        pcRef s' !! q = pcRef in_call !! q ∧
        peers s' !! q = peers in_call !! q) ∧
  handleSignal permissive me data None s' = (s', [], Done).
Proof.
  apply (departure_removes permissive me
           (Signal TUserLeft (Some 3%Z) None 0 0 None (Some 2%Z))
           None in_call 2%Z).
  split; [reflexivity|]. split; [reflexivity|].
  exists 3%Z. unfold from_peer, me. simpl. repeat split; [lia|congruence].
Defined.

(** ** The flags and the tracks *)

Lemma kinds_disjoint t : is_video t = negb (is_audio t).
Proof. unfold is_video, is_audio. by destruct (kind t). Qed.

Lemma track_eta t : Track (track_id t) (kind t) (enabled t) (ended t) = t.
Proof. by destruct t. Qed.

Lemma stream_eta st : Stream (stream_id st) (getTracks st) = st.
Proof. by destruct st. Qed.

Lemma set_enabled_kind b t :
  is_audio (set_enabled b t) = is_audio t ∧
  is_video (set_enabled b t) = is_video t.
Proof. done. Qed.

(** X12: after a mute toggle the mute flag tells the truth about every
    audio track of the local stream (enabled exactly when not muted),
    and after a camera toggle the camera flag about every video track;
    neither toggle disturbs the agreement of the other flag. *)
Theorem toggles_make_flags_agree (s : state) :
  mute_agrees (toggleMute s) ∧
  camera_agrees (toggleVideo s) ∧
  (camera_agrees s → camera_agrees (toggleMute s)) ∧
  (mute_agrees s → mute_agrees (toggleVideo s)).
Proof.
  unfold mute_agrees, camera_agrees, toggleMute, toggleVideo. simpl.
  destruct (localStream s) as [st|]; simpl; [|done].
  split; [|split; [|split]].
  - apply Forall_fmap, Forall_forall. intros t _. simpl.
    destruct (is_audio t) eqn:Ha.
    + intros _. simpl. by rewrite negb_involutive.
    + by rewrite Ha.
  - apply Forall_fmap, Forall_forall. intros t _. simpl.
    destruct (is_video t) eqn:Hv.
    + intros _. simpl. by rewrite negb_involutive.
    + by rewrite Hv.
  - intros Hag. apply Forall_fmap. eapply Forall_impl; [exact Hag|].
    intros t Ht. simpl. destruct (is_audio t) eqn:Ha; [|exact Ht].
    destruct (set_enabled_kind (isMuted s) t) as [_ ->].
    rewrite kinds_disjoint, Ha. done.
  - intros Hag. apply Forall_fmap. eapply Forall_impl; [exact Hag|].
    intros t Ht. simpl. destruct (is_video t) eqn:Hv; [|exact Ht].
    destruct (set_enabled_kind (isVideoOff s) t) as [-> _].
    rewrite kinds_disjoint in Hv. destruct (is_audio t); done.
Qed.

(** X13: when the mute flag agrees with the audio tracks, muting and
    unmuting (two mute toggles) gives back the very same state, and
    likewise two camera toggles when the camera flag agrees with the
    video tracks. *)
Theorem toggle_twice (s : state) :
  (mute_agrees s → toggleMute (toggleMute s) = s) ∧
  (camera_agrees s → toggleVideo (toggleVideo s) = s).
Proof.
  unfold mute_agrees, camera_agrees, toggleMute, toggleVideo,
    set_isMuted, set_isVideoOff, set_localStream. simpl.
  rewrite !negb_involutive.
  split; intros Hag.
  - assert (Hst : enable_audio (negb (isMuted s))
                    <$> (enable_audio (isMuted s) <$> localStream s)
                  = localStream s).
    { destruct (localStream s) as [st|]; [|done]. simpl. f_equal.
      unfold enable_audio. simpl. rewrite <- (stream_eta st) at 3.
      f_equal. rewrite <- list_fmap_compose.
      rewrite <- (list_fmap_id (getTracks st)) at 2.
      apply list_fmap_ext. intros i t Hi. simpl.
      assert (Ht : is_audio t = true → enabled t = negb (isMuted s)).
      { eapply Forall_lookup_1 in Hag; eauto. }
      destruct (is_audio t) eqn:Ha; simpl.
      - unfold is_audio in *. simpl. rewrite Ha.
        unfold set_enabled. simpl. rewrite <- Ht by done.
        apply track_eta.
      - by rewrite Ha. }
    rewrite Hst. apply state_eta.
  - assert (Hst : enable_video (negb (isVideoOff s))
                    <$> (enable_video (isVideoOff s) <$> localStream s)
                  = localStream s).
    { destruct (localStream s) as [st|]; [|done]. simpl. f_equal.
      unfold enable_video. simpl. rewrite <- (stream_eta st) at 3.
      f_equal. rewrite <- list_fmap_compose.
      rewrite <- (list_fmap_id (getTracks st)) at 2.
      apply list_fmap_ext. intros i t Hi. simpl.
      assert (Ht : is_video t = true → enabled t = negb (isVideoOff s)).
      { eapply Forall_lookup_1 in Hag; eauto. }
      destruct (is_video t) eqn:Hv; simpl.
      - unfold is_video in *. simpl. rewrite Hv.
        unfold set_enabled. simpl. rewrite <- Ht by done.
        apply track_eta.
      - by rewrite Hv. }
    rewrite Hst. apply state_eta.
Qed.

(** X14: a mute toggled before the local stream is acquired is not
    applied to the stream when it arrives: the stream is installed as
    delivered, so if it has an enabled audio track the component shows
    muted while that track is live. *)
Theorem mute_before_media_is_lost (s : state) (st : stream) (t : track) :
  localStream s = None → isMuted s = false →
  t ∈ getTracks st → is_audio t = true → enabled t = true →
  let s' := (start (Some st) (toggleMute s)).1 in
  localStream s' = Some st ∧ isMuted s' = true ∧ ¬ mute_agrees s'.
Proof.
  intros Hl Hm Hin Ha He s'. subst s'.
  unfold start, toggleMute, mute_agrees. simpl. rewrite Hm. simpl.
  repeat split. intros Hag.
  rewrite Forall_forall in Hag. specialize (Hag t Hin Ha). congruence.
Qed.

Lemma mute_before_media_is_lost_witness :
  let s' := (start (Some cam) (toggleMute init)).1 in
  localStream s' = Some cam ∧ isMuted s' = true ∧ ¬ mute_agrees s'.
Proof.
  apply (mute_before_media_is_lost init cam (Track 1 Audio true false));
    try reflexivity.
  apply list_elem_of_here.
Defined.

(** ** Screen share, start and stop *)

(** X15: from a state that is not sharing, starting a screen share and
    stopping it gives back the very same state; stopping when nothing is
    shared, or a refused start, changes nothing. *)
Theorem screen_share_round_trip (d : stream) (s : state) :
  screenStream s = None → isScreenSharing s = false →
  stopScreenShare (startScreenShare (Some d) s).1 = s ∧
  stopScreenShare s = s ∧
  (startScreenShare None s).1 = s.
Proof.
  intros Hs Hf.
  unfold stopScreenShare, startScreenShare, set_isScreenSharing,
    set_screenStream. simpl.
  rewrite <- Hs, <- Hf. rewrite state_eta. done.
Qed.

Lemma screen_share_round_trip_witness :
  stopScreenShare (startScreenShare (Some display) in_call).1 = in_call ∧
  stopScreenShare in_call = in_call ∧
  (startScreenShare None in_call).1 = in_call.
Proof.
  apply (screen_share_round_trip display in_call);
    vm_compute; reflexivity.
Defined.

(** ** Unmounting *)

Lemma stop_captured_same (o : option stream) :
  stop_captured o o = stop_all <$> o.
Proof.
  destruct o as [st|]; [|done]. simpl. by rewrite Nat.eqb_refl.
Qed.

(** X16: the cleanup of the mount effect reads the streams of the first
    render, which are absent, so on unmount it stops no track: the local
    and screen streams are left exactly as they are, live tracks
    included, and only the connection table is emptied.  Everything is
    released on unmount only if the user hung up first; a cleanup
    reading the current streams would have released everything. *)
Theorem cleanup_stops_no_track (s : state) :
  localStream (cleanup s) = localStream s ∧
  screenStream (cleanup s) = screenStream s ∧
  pcRef (cleanup s) = ∅ ∧
  held (cleanup s)
  = (live_tracks (localStream s), live_tracks (screenStream s), ∅) ∧
  held (cleanup (hangUp s).1) = ([], [], ∅) ∧
  held (cleanupWith s s) = ([], [], ∅).
Proof.
  unfold cleanup, cleanupWith, held, hangUp, open_pcs. simpl.
  rewrite !stop_captured_same, !live_tracks_stopped, map_filter_empty.
  repeat split; by destruct (localStream s), (screenStream s).
Qed.

(** ** What the signaling handler leaves alone *)

(** X17: whatever the message, the signaling handler leaves the mute,
    camera and screen-share flags, the screen stream, the join flag and
    the connected flag as they are, logs nothing to the console, and
    never asks to close the call. *)
Theorem handleSignal_leaves_controls tr uid data media s :
  let r := handleSignal tr uid data media s in
  isMuted r.1.1 = isMuted s ∧
  isVideoOff r.1.1 = isVideoOff s ∧
  isScreenSharing r.1.1 = isScreenSharing s ∧
  screenStream r.1.1 = screenStream s ∧
  joinSentRef r.1.1 = joinSentRef s ∧
  connected r.1.1 = connected s ∧
  (ConsoleError ∉ r.1.2) ∧ OnClose ∉ r.1.2.
Proof.
  pose proof (handleSignal_frame tr uid data media s)
    as (H1 & H2 & H3 & H4 & H5 & H6 & _ & H8).
  pose proof (handleSignal_emits tr uid data media s) as He.
  simpl in *. repeat split; try done.
  destruct He as [->|(p & st & c' & d & _ & _ & _ & _ & _ & _ & Hm)];
    [by apply not_elem_of_nil|].
  destruct Hm as [[_ ->]|(_ & _ & _ & ->)]; not_emitted.
Qed.

(** ** Candidates in a row *)

Lemma receive_cons tr uid m msgs s :
  receive tr uid (m :: msgs) s
  = receive tr uid msgs (handleSignal tr uid m.1 m.2 s).1.1.
Proof. done. Qed.

(** X18: with a transport that accepts candidates on a connection whose
    remote description is set, a run of candidate messages from a
    participant whose connection has its remote description, addressed
    to the local participant, leaves on the connection the candidates it
    had followed by the new ones in the order they arrived, and changes
    nothing else. *)
Theorem candidates_in_arrival_order tr (u p : Z) (xs : list ice)
    (s : state) (c : pc) :
  (∀ c' x, is_Some (remoteDescription c') →
           tr_ok tr c' (AddIceCandidate x) = true) →
  p ≠ 0%Z → p ≠ u →
  pcRef s !! p = Some c → is_Some (remoteDescription c) →
  receive tr (Some u) ((fun x => (sigIce p u x, None)) <$> xs) s
  = set_pcRef
      (<[p := with_candidates (iceCandidates c ++ xs) c]> (pcRef s)) s.
Proof.
  intros Hok Hp Hu. revert s c.
  induction xs as [|x xs IH]; intros s c Hc Hr.
  - simpl. rewrite app_nil_r.
    assert (with_candidates (iceCandidates c) c = c) as -> by by destruct c.
    rewrite insert_id by done. unfold set_pcRef. symmetry. apply state_eta.
  - rewrite fmap_cons, receive_cons. simpl.
    assert (Hstep : handleSignal tr (Some u) (sigIce p u x) None s
                    = (set_pcRef
                         (<[p := with_candidates (iceCandidates c ++ [x]) c]>
                            (pcRef s)) s, [], Done)).
    { unfold handleSignal. simpl.
      destruct (Z.eqb_spec p 0) as [|_]; [done|]. simpl.
      rewrite bool_decide_eq_false_2 by congruence.
      rewrite bool_decide_eq_true_2 by done.
      unfold callOn. by rewrite Hc, Hok. }
    rewrite Hstep. simpl.
    rewrite (IH _ (with_candidates (iceCandidates c ++ [x]) c));
      [|simpl; apply lookup_insert_eq|done].
    unfold set_pcRef, with_candidates. simpl.
    by rewrite insert_insert_eq, <- app_assoc.
Qed.

(** Three candidates from participant 2 after its answer. *)
Lemma candidates_in_arrival_order_witness :
  receive strict (Some 1%Z)
    ((fun x => (sigIce 2 1 x, None)) <$> [5; 6; 7]) in_call
  = set_pcRef
      (<[2%Z := with_candidates
                  (iceCandidates
                     (Pc 0 [(1, 1); (2, 1)] (Some 2) (Some 7) [] false)
                   ++ [5; 6; 7])
                  (Pc 0 [(1, 1); (2, 1)] (Some 2) (Some 7) [] false)]>
         (pcRef in_call)) in_call.
Proof.
  apply (candidates_in_arrival_order strict 1 2 [5; 6; 7] in_call
           (Pc 0 [(1, 1); (2, 1)] (Some 2) (Some 7) [] false)).
  - intros c' x Hr. simpl. by apply bool_decide_eq_true_2.
  - lia.
  - lia.
  - vm_compute. reflexivity.
  - simpl. by eexists.
Defined.
